(** * ODrive I2C client library (ArduinoI2C/odrive.h)

    A shallow embedding of the little-endian scalar codec ([read_le],
    [write_le]) and of the endpoint accessors ([read_property],
    [write_property]) of [namespace odrive], followed by the properties
    that the design document states about them. *)

From Stdlib Require Import ZArith Lia.
From Stdlib.Strings Require Import Byte.
From stdpp Require Import base option list.

Local Open Scope Z_scope.

(** ** C++ scalar types *)

Inductive int_size := I8 | I16 | I32 | I64.

(** The types a template parameter [T] can be instantiated with, as far as
    the traits used in the header can tell them apart: [bool], the
    fixed-width integers of [<stdint.h>], the two IEEE-754 floating-point
    types, and any other object type (a class, a pointer) of some size.
    [TFloat] is the 32-bit and [TDouble] the 64-bit format; where the
    compiler gives [double] the 32-bit format, as AVR-GCC does, [double]
    is a [TFloat]. *)
Inductive ctype :=
| TBool
| TInt (is_signed : bool) (sz : int_size)
| TFloat
| TDouble
| TClass (size : nat).

Abbreviation uint8_t := (TInt false I8).
Abbreviation uint16_t := (TInt false I16).
Abbreviation uint32_t := (TInt false I32).
Abbreviation uint64_t := (TInt false I64).
Abbreviation int8_t := (TInt true I8).
Abbreviation int16_t := (TInt true I16).
Abbreviation int32_t := (TInt true I32).
Abbreviation int64_t := (TInt true I64).

Definition CHAR_BIT : nat := 8.

Definition int_bytes (sz : int_size) : nat :=
  match sz with I8 => 1 | I16 => 2 | I32 => 4 | I64 => 8 end.

Definition sizeof (T : ctype) : nat :=
  match T with
  | TBool => 1
  | TInt _ sz => int_bytes sz
  | TFloat => 4
  | TDouble => 8
  | TClass n => n
  end.

(** [std::is_integral] and [std::is_floating_point]. *)
Definition is_integral (T : ctype) : bool :=
  match T with TBool | TInt _ _ => true | _ => false end.

Definition is_floating_point (T : ctype) : bool :=
  match T with TFloat | TDouble => true | _ => false end.

(** [bit_width<T>] is [CHAR_BIT * sizeof(T)], [byte_width<T>] is
    [(bit_width<T>::value + 7) / 8]. *)
Definition bit_width (T : ctype) : nat := (CHAR_BIT * sizeof T)%nat.

Definition byte_width (T : ctype) : nat := ((bit_width T + 7) / 8)%nat.

(** [unsigned_int_of_size<IBitSize>]: the primary template is declared but
    not defined, and [32] is its only specialisation. [None] stands for the
    incomplete type, whose member [type] does not exist. *)
Definition unsigned_int_of_size (IBitSize : nat) : option ctype :=
  if Nat.eqb IBitSize 32 then Some uint32_t else None.

(** ** Integer arithmetic *)

(** Conversion of a mathematical integer to the integral type [T]:
    non-zero to [true] for [bool], reduction modulo [2^w] for an unsigned
    type, and the two's complement value congruent modulo [2^w] for a
    signed one (what C++20 prescribes and what GCC has always done). *)
Definition convert (T : ctype) (z : Z) : Z :=
  let w := Z.of_nat (bit_width T) in
  match T with
  | TBool => if Z.eqb z 0 then 0 else 1
  | TInt false _ => z mod 2 ^ w
  | TInt true _ => (z + 2 ^ (w - 1)) mod 2 ^ w - 2 ^ (w - 1)
  | _ => z
  end.

(** Integral promotion on a platform whose [int] has size [int_sz]: a type
    narrower than [int] is promoted to [int], any other is left as it is. *)
Definition promote (int_sz : int_size) (T : ctype) : ctype :=
  match T with
  | TBool => TInt true int_sz
  | TInt _ sz => if Nat.ltb (int_bytes sz) (int_bytes int_sz)
                 then TInt true int_sz else T
  | _ => T
  end.

(** [x << k] evaluated in the type [P]: the product [x * 2^k] reduced to
    [P]. *)
Definition shl (P : ctype) (x k : Z) : Z := convert P (Z.shiftl x k).

(** The values an object of integral type [T] can hold. *)
Definition int_range (T : ctype) (z : Z) : Prop :=
  let w := Z.of_nat (bit_width T) in
  match T with
  | TBool => 0 <= z <= 1
  | TInt false _ => 0 <= z < 2 ^ w
  | TInt true _ => - 2 ^ (w - 1) <= z < 2 ^ (w - 1)
  | _ => False
  end.

(** ** Bytes *)

Definition Z_of_byte (b : byte) : Z := Z.of_N (Byte.to_N b).

(** Conversion to [uint8_t] on assignment to a buffer cell. *)
Definition uint8_of_Z (z : Z) : byte :=
  match Byte.of_N (Z.to_N (z mod 256)) with
  | Some b => b
  | None => x00
  end.

(** ** Floating-point objects

    A floating-point object is described by the three fields of its
    IEEE-754 interchange format; [reinterpret_cast] between the object and
    the unsigned integer of the same width reads or writes those fields at
    their positions in the bit pattern. *)
Record ieee := Ieee { sign : bool; biased_exp : Z; fraction : Z }.

Definition exp_bits (T : ctype) : Z :=
  match T with TFloat => 8 | TDouble => 11 | _ => 0 end.

Definition frac_bits (T : ctype) : Z :=
  match T with TFloat => 23 | TDouble => 52 | _ => 0 end.

Definition float_to_bits (T : ctype) (f : ieee) : Z :=
  Z.lor (Z.shiftl (Z.b2z (sign f)) (exp_bits T + frac_bits T))
        (Z.lor (Z.shiftl (biased_exp f) (frac_bits T)) (fraction f)).

Definition float_of_bits (T : ctype) (z : Z) : ieee :=
  {| sign := Z.testbit z (exp_bits T + frac_bits T);
     biased_exp := Z.land (Z.shiftr z (frac_bits T)) (Z.ones (exp_bits T));
     fraction := Z.land z (Z.ones (frac_bits T)) |}.

Definition float_range (T : ctype) (f : ieee) : Prop :=
  0 <= biased_exp f < 2 ^ exp_bits T /\ 0 <= fraction f < 2 ^ frac_bits T.

(** A scalar value: an integer, or a floating-point object. *)
Inductive cvalue :=
| VInt (z : Z)
| VFloat (f : ieee).

Definition representable (T : ctype) (v : cvalue) : Prop :=
  match v with
  | VInt z => is_integral T = true /\ int_range T z
  | VFloat f => is_floating_point T = true /\ float_range T f
  end.

(** ** Buffers

    A buffer is an array of bytes; a pointer into it is an index. The
    state of a computation on a buffer is the array and the list of the
    indices accessed so far; an access outside the array has no defined
    result. *)
Record mem := Mem { cells : list byte; accesses : list nat }.

Definition M (A : Type) : Type := mem -> option (A * mem).

Definition ret {A} (a : A) : M A := fun m => Some (a, m).

Definition bind {A B} (c : M A) (f : A -> M B) : M B :=
  fun m => match c m with
           | Some (a, m') => f a m'
           | None => None
           end.

Declare Scope mem_scope.
Delimit Scope mem_scope with mem.
Notation "'let*' x := c 'in' k" := (bind c (fun x => k))
  (at level 10, x name, c at level 100, k at level 200) : mem_scope.
Notation "c ;; k" := (bind c (fun _ => k))
  (at level 100, k at level 200, right associativity) : mem_scope.

(** A computation that has no defined result. *)
Definition undefined {A} : M A := fun _ => None.

Definition load (p : nat) : M byte :=
  fun m => match cells m !! p with
           | Some b => Some (b, Mem (cells m) (accesses m ++ [p]))
           | None => None
           end.

Definition store (p : nat) (b : byte) : M unit :=
  fun m => if decide (p < length (cells m))%nat
           then Some (tt, Mem (<[p:=b]> (cells m)) (accesses m ++ [p]))
           else None.

(** [for (size_t i = first; i < first + count; ++i) body], threading the
    variables the body assigns through the state [St]. *)
Fixpoint for_loop {St} (count first : nat) (body : nat -> St -> M St)
    (s : St) : M St :=
  match count with
  | O => ret s
  | S n => bind (body first s) (for_loop n (S first) body)
  end.

(** ** The codec *)

Section Codec.

(** The size of the platform's [int] (two bytes on AVR, four on ARM). *)
Variable int_sz : int_size.

Local Open Scope mem_scope.

(** The integral overload of [read_le]:
<<
    T value = 0;
    for (size_t i = 0; i < byte_width<T>::value; ++i)
        value |= (static_cast<T>(buffer[i]) << (i << 3));
    return value;
>> *)
Definition read_le_integral (T : ctype) (buffer : nat) : M Z :=
  for_loop (byte_width T) 0
    (fun i value =>
       let* b := load (buffer + i) in
       ret (convert T
              (Z.lor value
                 (shl (promote int_sz T) (convert T (Z_of_byte b))
                    (Z.shiftl (Z.of_nat i) 3)))))
    0.

(** The integral overload of [write_le]:
<<
    for (size_t i = 0; i < byte_width<T>::value; ++i)
        buffer[i] = (value >> (i << 3)) & 0xff;
>> *)
Definition write_le_integral (T : ctype) (buffer : nat) (value : Z)
    : M unit :=
  for_loop (byte_width T) 0
    (fun i _ =>
       store (buffer + i)
         (uint8_of_Z (Z.land (Z.shiftr value (Z.shiftl (Z.of_nat i) 3)) 255)))
    tt.

(** Overload resolution and instantiation of [read_le<T>]. The integral
    overload is viable when [is_integral<T>], the floating-point one when
    [is_floating_point<T>]; the body of the latter names
    [unsigned_int_of_size<bit_width<T>::value>::type] and calls
    [read_le] at that type. [None] is a program that does not compile. *)
Definition read_le (T : ctype) : option (nat -> M cvalue) :=
  if is_integral T then
    Some (fun buffer =>
            let* value := read_le_integral T buffer in ret (VInt value))
  else if is_floating_point T then
    match unsigned_int_of_size (bit_width T) with
    | Some T_Int =>
        if is_integral T_Int then
          Some (fun buffer =>
                  let* value := read_le_integral T_Int buffer in
                  ret (VFloat (float_of_bits T value)))
        else None
    | None => None
    end
  else None.

(** Overload resolution and instantiation of [write_le<T>]. The
    floating-point overload,
<<
    typename std::enable_if<std::is_floating_point<T>::value, T>::type
    write_le(uint8_t buffer[byte_width<T>::value], T value) {
        using T_Int = typename unsigned_int_of_size<bit_width<T>::value>::type;
        write_le<T_Int>(buffer, *reinterpret_cast<T_Int*>(&value));
    }
>>
    is declared to return [T] and has no [return] statement: after the
    call of [write_le<T_Int>] control flows off the end of a function that
    returns a value, and from there on nothing is defined (the integral
    overload returns [void]). An argument that is not an object of type
    [T] has no defined result either. *)
Definition write_le (T : ctype) : option (nat -> cvalue -> M unit) :=
  if is_integral T then
    Some (fun buffer value =>
            match value with
            | VInt z => write_le_integral T buffer z
            | VFloat _ => undefined
            end)
  else if is_floating_point T then
    match unsigned_int_of_size (bit_width T) with
    | Some T_Int =>
        if is_integral T_Int then
          Some (fun buffer value =>
                  match value with
                  | VFloat f =>
                      write_le_integral T_Int buffer (float_to_bits T f) ;;
                      undefined
                  | VInt _ => undefined
                  end)
        else None
    | None => None
    end
  else None.

End Codec.

(** ** The bus *)

(** The arguments of one call of the external function
<<
    bool I2C_transaction(uint8_t slave_addr,
                         const uint8_t * tx_buffer, size_t tx_length,
                         uint8_t * rx_buffer, size_t rx_length);
>>
    A pointer argument is [None] when it is null; [tx_buffer] carries the
    contents of the array pointed to and [rx_buffer] the number of cells
    of the array pointed to. *)
Record request := Request {
  slave_addr : Z;
  tx_buffer : option (list byte);
  tx_length : nat;
  rx_buffer : option nat;
  rx_length : nat
}.

(** What a call leaves behind: the flag it returns and, for each index, the
    byte found in the receive array afterwards. *)
Record reply := Reply { success : bool; rx_bytes : nat -> byte }.

(** A computation that talks to the bus: it returns, or has no defined
    behaviour, or calls [I2C_transaction] and goes on with the reply. *)
Inductive io (A : Type) : Type :=
| Return (a : A)
| Undefined
| I2C_transaction (rq : request) (k : reply -> io A).

Arguments Return {A} a.
Arguments Undefined {A}.
Arguments I2C_transaction {A} rq k.

(** Running a computation against a bus that answers each call. *)
Fixpoint run {A} (bus : request -> reply) (c : io A) : option A :=
  match c with
  | Return a => Some a
  | Undefined => None
  | I2C_transaction rq k => run bus (k (bus rq))
  end.

(** The calls a computation makes, in order. *)
Fixpoint calls {A} (bus : request -> reply) (c : io A) : list request :=
  match c with
  | Return _ | Undefined => []
  | I2C_transaction rq k => rq :: calls bus (k (bus rq))
  end.

(** [static constexpr const uint8_t i2c_addr = (0xD << 3);] *)
Definition i2c_addr : Z := convert uint8_t (Z.shiftl 13 3).

(** ** Endpoint access *)

Section Endpoints.

Variable int_sz : int_size.

(** Modelled from the spec: the generated catalog [odrive_endpoints.h] is
    not part of the sources. It maps each property id to the type
    [endpoint_type_t<IPropertyId>] of its value ([None] where the id has
    none) and supplies the checksum constant [json_crc]. *)
Variable endpoint_type : Z -> option ctype.
Variable json_crc : Z.

(** The bytes found in automatic storage that has not been written yet. *)
Variable indeterminate : nat -> byte.

Definition local_array (size : nat) : mem :=
  Mem (map indeterminate (seq 0 size)) [].

(** The receive array after the call that filled it. *)
Definition received (r : reply) (size : nat) : mem :=
  Mem (map (rx_bytes r) (seq 0 size)) [].

Local Open Scope mem_scope.

(** [read_property<IPropertyId>(num, value)]. [None] is a program that does
    not compile. The pointer [value] is [None] when null and holds the
    pointee otherwise; the result is the returned flag and the pointee on
    return. [num] is a [uint8_t]; the sum [i2c_addr + num] is an [int] and
    is converted to the [uint8_t] parameter of [I2C_transaction].
<<
    uint8_t i2c_tx_buffer[4];
    write_le<uint16_t>(i2c_tx_buffer, IPropertyId);
    write_le<uint16_t>(i2c_tx_buffer + sizeof(i2c_tx_buffer) - 2, json_crc);
    uint8_t i2c_rx_buffer[byte_width<endpoint_type_t<IPropertyId>>::value];
    if (!I2C_transaction(i2c_addr + num,
        i2c_tx_buffer, sizeof(i2c_tx_buffer),
        i2c_rx_buffer, sizeof(i2c_rx_buffer)))
        return false;
    if (value)
        *value = read_le<endpoint_type_t<IPropertyId>>(i2c_rx_buffer);
    return true;
>> *)
Definition read_property (IPropertyId : Z)
    : option (Z -> option cvalue -> io (bool * option cvalue)) :=
  match endpoint_type IPropertyId with
  | None => None
  | Some T =>
      match write_le uint16_t, read_le int_sz T with
      | Some write_u16, Some read_T =>
          Some (fun num value =>
            let size := 4%nat in
            let rx_size := byte_width T in
            match (write_u16 0%nat (VInt (convert uint16_t IPropertyId)) ;;
                   write_u16 (0 + size - 2)%nat
                     (VInt (convert uint16_t json_crc)))
                    (local_array size) with
            | None => Undefined
            | Some (_, i2c_tx_buffer) =>
                I2C_transaction
                  {| slave_addr := convert uint8_t (i2c_addr + num);
                     tx_buffer := Some (cells i2c_tx_buffer);
                     tx_length := size;
                     rx_buffer := Some rx_size;
                     rx_length := rx_size |}
                  (fun r =>
                     if negb (success r) then Return (false, value)
                     else
                       match value with
                       | Some _ =>
                           match read_T 0%nat (received r rx_size) with
                           | Some (v, _) => Return (true, Some v)
                           | None => Undefined
                           end
                       | None => Return (true, None)
                       end)
            end)
      | _, _ => None
      end
  end.

(** [write_property<IPropertyId>(num, value)].
<<
    uint8_t i2c_tx_buffer[4 + byte_width<endpoint_type_t<IPropertyId>>::value];
    write_le<uint16_t>(i2c_tx_buffer, IPropertyId);
    write_le<endpoint_type_t<IPropertyId>>(i2c_tx_buffer + 2, value);
    write_le<uint16_t>(i2c_tx_buffer + sizeof(i2c_tx_buffer) - 2, json_crc);
    return I2C_transaction(i2c_addr + num, i2c_tx_buffer,
                           sizeof(i2c_tx_buffer), nullptr, 0);
>> *)
Definition write_property (IPropertyId : Z)
    : option (Z -> cvalue -> io bool) :=
  match endpoint_type IPropertyId with
  | None => None
  | Some T =>
      match write_le uint16_t, write_le T with
      | Some write_u16, Some write_T =>
          Some (fun num value =>
            let size := (4 + byte_width T)%nat in
            match (write_u16 0%nat (VInt (convert uint16_t IPropertyId)) ;;
                   write_T (0 + 2)%nat value ;;
                   write_u16 (0 + size - 2)%nat
                     (VInt (convert uint16_t json_crc)))
                    (local_array size) with
            | None => Undefined
            | Some (_, i2c_tx_buffer) =>
                I2C_transaction
                  {| slave_addr := convert uint8_t (i2c_addr + num);
                     tx_buffer := Some (cells i2c_tx_buffer);
                     tx_length := size;
                     rx_buffer := None;
                     rx_length := 0 |}
                  (fun r => Return (success r))
            end)
      | _, _ => None
      end
  end.

End Endpoints.

(** * Vocabulary of the statements *)

(** Congruence modulo [2^w]. *)
Definition eqm (w x y : Z) : Prop := x mod 2 ^ w = y mod 2 ^ w.

(** Byte [i] of the little-endian representation of [v], as [write_le]
    computes it, and the first [n] of them. *)
Definition le_byte (v : Z) (i : nat) : byte :=
  uint8_of_Z (Z.land (Z.shiftr v (Z.shiftl (Z.of_nat i) 3)) 255).

Definition le_bytes (n : nat) (v : Z) : list byte := map (le_byte v) (seq 0 n).

(** One iteration of the loop of [read_le] on the byte [b], and [count]
    iterations from the index [first] on bytes given by [get]. *)
Definition read_step (int_sz : int_size) (T : ctype) (i : nat) (b : byte)
    (value : Z) : Z :=
  convert T
    (Z.lor value
       (shl (promote int_sz T) (convert T (Z_of_byte b))
          (Z.shiftl (Z.of_nat i) 3))).

Fixpoint read_acc (int_sz : int_size) (T : ctype) (count first : nat)
    (get : nat -> byte) (value : Z) : Z :=
  match count with
  | O => value
  | S n => read_acc int_sz T n (S first) get
             (read_step int_sz T first (get first) value)
  end.

(** The types for which the header's [read_le] and [write_le] compile. *)
Definition supported (T : ctype) : Prop := is_integral T = true \/ T = TFloat.

(** The integer whose bytes represent a scalar of type [T]. *)
Definition scalar_bits (T : ctype) (v : cvalue) : Z :=
  match v with
  | VInt z => z
  | VFloat f => float_to_bits T f
  end.

(** C3, as the design document has it: the codec is defined for the
    fixed-width integers and for both IEEE-754 formats, and for nothing
    else. *)
Definition codec_domain_as_specified : Prop :=
  forall int_sz T,
    (is_Some (read_le int_sz T) /\ is_Some (write_le T))
    <-> ((exists sg sz, T = TInt sg sz) \/ T = TFloat \/ T = TDouble).

(** The frame of a read request and of a write request. *)
Definition read_frame (IPropertyId json_crc : Z) : list byte :=
  le_bytes 2 (convert uint16_t IPropertyId)
  ++ le_bytes 2 (convert uint16_t json_crc).

Definition write_frame (T : ctype) (IPropertyId : Z) (value : cvalue)
    (json_crc : Z) : list byte :=
  le_bytes 2 (convert uint16_t IPropertyId)
  ++ le_bytes (byte_width T) (scalar_bits T value)
  ++ le_bytes 2 (convert uint16_t json_crc).

(** Decoding a byte sequence as a [T] with [read_le]. *)
Definition decode (int_sz : int_size) (T : ctype) (bytes : list byte)
    : option cvalue :=
  match read_le int_sz T with
  | Some rd => option_map fst (rd 0%nat (Mem bytes []))
  | None => None
  end.

(** The arguments of the transaction of a read and of a write. *)
Definition read_request (T : ctype) (IPropertyId json_crc num : Z) : request :=
  {| slave_addr := convert uint8_t (i2c_addr + num);
     tx_buffer := Some (read_frame IPropertyId json_crc);
     tx_length := 4;
     rx_buffer := Some (byte_width T);
     rx_length := byte_width T |}.

Definition write_request (T : ctype) (IPropertyId : Z) (value : cvalue)
    (json_crc num : Z) : request :=
  {| slave_addr := convert uint8_t (i2c_addr + num);
     tx_buffer := Some (write_frame T IPropertyId value json_crc);
     tx_length := 4 + byte_width T;
     rx_buffer := None;
     rx_length := 0 |}.

(** A catalog with two endpoints, and a bus that answers every call with
    the same flag and the same bytes. *)
Definition sample_endpoint_type (id : Z) : option ctype :=
  if id =? 5 then Some uint16_t
  else if id =? 6 then Some TFloat
  else None.

Definition sample_bus (ok : bool) (rq : request) : reply :=
  Reply ok (fun i => if Nat.even i then x34 else x12).

(** C10, as stated: for every 8-bit device index the address handed to the
    bus is [(0x68 + num) mod 2^8], and from the index 24 on the sum has
    wrapped, that is, the address is below [0x68 + num]. *)
Definition address_wrap_as_specified : Prop :=
  forall int_sz endpoint_type json_crc indeterminate IPropertyId T rp num
         value bus rq,
    endpoint_type IPropertyId = Some T ->
    read_property int_sz endpoint_type json_crc indeterminate IPropertyId
    = Some rp ->
    0 <= num < 256 ->
    calls bus (rp num value) = [rq] ->
    slave_addr rq = (0x68 + num) mod 2 ^ 8
    /\ (24 <= num -> slave_addr rq < 0x68 + num).

(** The number a byte sequence denotes, least significant byte first. *)
Fixpoint le_combine (bytes : list byte) : Z :=
  match bytes with
  | [] => 0
  | b :: rest => Z_of_byte b + 256 * le_combine rest
  end.

(** The object of type [T] that a byte sequence denotes: for an integral
    [T] the number converted to [T], for a floating-point [T] the object
    with that bit pattern. *)
Definition le_decode (T : ctype) (bytes : list byte) : cvalue :=
  if is_integral T then VInt (convert T (le_combine bytes))
  else VFloat (float_of_bits T (le_combine bytes)).


(** * Properties *)

(** ** Congruence modulo a power of two *)

Lemma eqm_refl w x : eqm w x x.
Proof. reflexivity. Qed.

Lemma eqm_sym w x y : eqm w x y -> eqm w y x.
Proof. unfold eqm; congruence. Qed.

Lemma eqm_trans w x y z : eqm w x y -> eqm w y z -> eqm w x z.
Proof. unfold eqm; congruence. Qed.

Lemma eqm_mod w x : 0 <= w -> eqm w (x mod 2 ^ w) x.
Proof. intros Hw. unfold eqm. apply Z.mod_mod. apply Z.pow_nonzero; lia. Qed.

Lemma eqm_testbit w x y :
  0 <= w ->
  eqm w x y <-> (forall i, 0 <= i < w -> Z.testbit x i = Z.testbit y i).
Proof.
  intros Hw. unfold eqm. split.
  - intros H i Hi.
    rewrite <- (Z.mod_pow2_bits_low x w i), <- (Z.mod_pow2_bits_low y w i) by lia.
    now rewrite H.
  - intros H. apply Z.bits_inj'. intros i Hi.
    rewrite !Z.testbit_mod_pow2 by lia.
    destruct (Z.ltb_spec i w) as [Hlt | Hge]; [|reflexivity].
    cbn. apply H. lia.
Qed.

Lemma eqm_narrow w w' x y : 0 <= w <= w' -> eqm w' x y -> eqm w x y.
Proof.
  intros Hw H. apply eqm_testbit; [lia|]. intros i Hi.
  apply (proj1 (eqm_testbit w' x y ltac:(lia)) H). lia.
Qed.

Lemma eqm_shiftl w x y k :
  0 <= w -> 0 <= k -> eqm w x y -> eqm w (Z.shiftl x k) (Z.shiftl y k).
Proof.
  intros Hw Hk H. apply eqm_testbit; [lia|]. intros i Hi.
  rewrite !Z.shiftl_spec by lia.
  destruct (Z.ltb_spec (i - k) 0) as [Hneg | Hpos].
  - now rewrite !Z.testbit_neg_r.
  - apply (proj1 (eqm_testbit w x y Hw) H). lia.
Qed.

Lemma eqm_lor w a a' b b' :
  0 <= w -> eqm w a a' -> eqm w b b' -> eqm w (Z.lor a b) (Z.lor a' b').
Proof.
  intros Hw Ha Hb. apply eqm_testbit; [lia|]. intros i Hi.
  rewrite !Z.lor_spec.
  rewrite (proj1 (eqm_testbit w a a' Hw) Ha i Hi).
  now rewrite (proj1 (eqm_testbit w b b' Hw) Hb i Hi).
Qed.

(** One more byte of [v], put at bit [k], extends the low [k] bits of [v]
    to its low [k + 8] bits. *)
Lemma lor_next_byte v k :
  0 <= k ->
  Z.lor (v mod 2 ^ k) (Z.shiftl (Z.land (Z.shiftr v k) 255) k)
  = v mod 2 ^ (k + 8).
Proof.
  intros Hk. apply Z.bits_inj'. intros i Hi.
  rewrite Z.lor_spec, !Z.testbit_mod_pow2, Z.shiftl_spec by lia.
  destruct (Z.ltb_spec i k) as [Hlt | Hge].
  - rewrite (Z.testbit_neg_r _ (i - k)) by lia.
    destruct (Z.ltb_spec i (k + 8)); [|lia].
    cbn. now rewrite orb_false_r.
  - cbn. rewrite Z.land_spec, Z.shiftr_spec by lia.
    replace (i - k + k) with i by lia.
    change 255 with (Z.ones 8).
    rewrite Z.testbit_ones_nonneg by lia.
    destruct (Z.ltb_spec (i - k) 8), (Z.ltb_spec i (k + 8)); try lia;
      now rewrite ?andb_true_r, ?andb_false_r.
Qed.

Lemma land_255_range z : 0 <= Z.land z 255 < 256.
Proof.
  change 255 with (Z.ones 8). rewrite Z.land_ones by lia.
  apply Z.mod_pos_bound. lia.
Qed.

Lemma testbit_above x k i :
  0 <= x < 2 ^ k -> 0 <= k <= i -> Z.testbit x i = false.
Proof.
  intros Hx Hk. rewrite <- (Z.mod_small x (2 ^ k)) by lia.
  apply Z.mod_pow2_bits_high. lia.
Qed.

(** ** Bytes *)

Lemma Z_of_byte_range b : 0 <= Z_of_byte b < 256.
Proof.
  unfold Z_of_byte. pose proof (Byte.to_N_bounded b). lia.
Qed.

Lemma Z_of_uint8 z : Z_of_byte (uint8_of_Z z) = z mod 256.
Proof.
  unfold uint8_of_Z, Z_of_byte.
  pose proof (Z.mod_pos_bound z 256 ltac:(lia)) as Hr.
  destruct (Byte.of_N (Z.to_N (z mod 256))) as [b|] eqn:E.
  - apply Byte.to_of_N in E. rewrite E. lia.
  - apply Byte.of_N_None_iff in E. lia.
Qed.

Lemma uint8_of_byte b : uint8_of_Z (Z_of_byte b) = b.
Proof.
  unfold uint8_of_Z, Z_of_byte.
  pose proof (Byte.to_N_bounded b).
  rewrite Z.mod_small by lia.
  rewrite N2Z.id, Byte.of_to_N. reflexivity.
Qed.

(** ** Integer conversions *)

Lemma int_bytes_pos sz : (1 <= int_bytes sz <= 8)%nat.
Proof. destruct sz; cbn; lia. Qed.

Lemma bit_width_int sg sz :
  Z.of_nat (bit_width (TInt sg sz)) = 8 * Z.of_nat (int_bytes sz).
Proof. unfold bit_width, CHAR_BIT. cbn [sizeof]. lia. Qed.

Lemma byte_width_int sg sz : byte_width (TInt sg sz) = int_bytes sz.
Proof. destruct sz; reflexivity. Qed.

Lemma pow2_half w : 1 <= w -> 2 ^ w = 2 * 2 ^ (w - 1) /\ 0 < 2 ^ (w - 1).
Proof.
  intros Hw. split.
  - replace w with (Z.succ (w - 1)) at 1 by lia. apply Z.pow_succ_r. lia.
  - apply Z.pow_pos_nonneg; lia.
Qed.

Lemma convert_eqm sg sz z :
  eqm (Z.of_nat (bit_width (TInt sg sz))) (convert (TInt sg sz) z) z.
Proof.
  pose proof (bit_width_int sg sz) as Hw.
  pose proof (int_bytes_pos sz) as Hb.
  unfold convert. destruct sg.
  - unfold eqm. rewrite Zminus_mod_idemp_l. f_equal. lia.
  - apply eqm_mod. lia.
Qed.

Lemma convert_range sg sz z : int_range (TInt sg sz) (convert (TInt sg sz) z).
Proof.
  pose proof (bit_width_int sg sz) as Hw.
  pose proof (int_bytes_pos sz) as Hb.
  unfold convert, int_range. destruct sg.
  - destruct (pow2_half (Z.of_nat (bit_width (TInt true sz)))) as [E Hh]; [lia|].
    pose proof (Z.mod_pos_bound (z + 2 ^ (Z.of_nat (bit_width (TInt true sz)) - 1))
                  (2 ^ Z.of_nat (bit_width (TInt true sz))) ltac:(lia)).
    lia.
  - apply Z.mod_pos_bound. apply Z.pow_pos_nonneg; lia.
Qed.

Lemma eqm_small_inj m a b :
  0 < m -> - m < a - b < m -> a mod m = b mod m -> a = b.
Proof.
  intros Hm Hab H.
  assert (E : (a - b) mod m = 0).
  { rewrite Zminus_mod, H, Z.sub_diag. apply Z.mod_0_l. lia. }
  apply Z.mod_divide in E; [|lia]. destruct E as [q Hq].
  assert (q = 0) by nia. lia.
Qed.

Lemma int_range_inj sg sz a b :
  int_range (TInt sg sz) a -> int_range (TInt sg sz) b ->
  eqm (Z.of_nat (bit_width (TInt sg sz))) a b -> a = b.
Proof.
  pose proof (bit_width_int sg sz) as Hw.
  pose proof (int_bytes_pos sz) as Hb.
  unfold int_range, eqm. intros Ha Hb' H.
  destruct (pow2_half (Z.of_nat (bit_width (TInt sg sz)))) as [E Hh]; [lia|].
  apply (eqm_small_inj _ a b) in H; [assumption|lia|].
  destruct sg; lia.
Qed.

Lemma convert_id sg sz z :
  int_range (TInt sg sz) z -> convert (TInt sg sz) z = z.
Proof.
  intros Hz. apply (int_range_inj sg sz); [apply convert_range|assumption|].
  apply convert_eqm.
Qed.

Lemma promote_int int_sz sg sz :
  exists sg' sz', promote int_sz (TInt sg sz) = TInt sg' sz'
                  /\ (int_bytes sz <= int_bytes sz')%nat.
Proof.
  unfold promote. destruct (Nat.ltb_spec (int_bytes sz) (int_bytes int_sz)).
  - exists true, int_sz. split; [reflexivity|lia].
  - exists sg, sz. split; [reflexivity|lia].
Qed.

Lemma convert_promote_eqm int_sz sg sz z :
  eqm (Z.of_nat (bit_width (TInt sg sz)))
      (convert (promote int_sz (TInt sg sz)) z) z.
Proof.
  destruct (promote_int int_sz sg sz) as (sg' & sz' & -> & Hle).
  apply (eqm_narrow _ (Z.of_nat (bit_width (TInt sg' sz')))).
  - rewrite !bit_width_int. lia.
  - apply convert_eqm.
Qed.

(** ** The two loops *)

Lemma shift3 i : Z.shiftl (Z.of_nat i) 3 = 8 * Z.of_nat i.
Proof. rewrite Z.shiftl_mul_pow2 by lia. change (2 ^ 3) with 8. lia. Qed.

Lemma store_loop p v count :
  forall first cs acc,
    (p + first + count <= length cs)%nat ->
    exists cs',
      for_loop count first (fun i _ => store (p + i) (le_byte v i)) tt
        (Mem cs acc)
      = Some (tt, Mem cs' (acc ++ seq (p + first) count))
      /\ length cs' = length cs
      /\ (forall i, (first <= i < first + count)%nat ->
                    cs' !! (p + i)%nat = Some (le_byte v i))
      /\ (forall j, (j < p + first \/ p + first + count <= j)%nat ->
                    cs' !! j = cs !! j).
Proof.
  induction count as [|n IH]; intros first cs acc Hlen.
  - exists cs. cbn. rewrite app_nil_r.
    split; [reflexivity|]. split; [reflexivity|].
    split; intros; [lia|reflexivity].
  - set (cs1 := <[(p + first)%nat := le_byte v first]> cs).
    destruct (IH (S first) cs1 (acc ++ [(p + first)%nat])) as
      (cs' & Hrun & Hl & Hin & Hout).
    { unfold cs1. rewrite length_insert. lia. }
    exists cs'. cbn [for_loop]. unfold bind at 1. unfold store at 1.
    cbn [cells accesses].
    destruct (decide (p + first < length cs)%nat) as [_|Hn]; [|lia].
    fold cs1. rewrite Hrun.
    replace (p + S first)%nat with (S (p + first)) by lia.
    rewrite <- app_assoc. cbn [app seq].
    split; [reflexivity|]. split.
    { rewrite Hl. unfold cs1. apply length_insert. }
    split.
    + intros i Hi. destruct (decide (i = first)) as [->|Hne].
      * rewrite Hout by lia. unfold cs1.
        apply list_lookup_insert_eq. lia.
      * apply Hin. lia.
    + intros j Hj. rewrite Hout by lia. unfold cs1.
      apply list_lookup_insert_ne. lia.
Qed.

Lemma load_loop int_sz T p get count :
  forall first value cs acc,
    (forall i, (first <= i < first + count)%nat ->
               cs !! (p + i)%nat = Some (get i)) ->
    for_loop count first
      (fun i value =>
         bind (load (p + i))
           (fun b =>
              ret (convert T
                     (Z.lor value
                        (shl (promote int_sz T) (convert T (Z_of_byte b))
                           (Z.shiftl (Z.of_nat i) 3))))))
      value (Mem cs acc)
    = Some (read_acc int_sz T count first get value,
            Mem cs (acc ++ seq (p + first) count)).
Proof.
  induction count as [|n IH]; intros first value cs acc Hget.
  - cbn. now rewrite app_nil_r.
  - cbn [for_loop read_acc]. unfold bind at 1. unfold bind at 1.
    unfold load at 1. cbn [cells accesses].
    rewrite (Hget first) by lia. unfold ret at 1.
    rewrite IH by (intros i Hi; apply Hget; lia).
    replace (p + S first)%nat with (S (p + first)) by lia.
    rewrite <- app_assoc. reflexivity.
Qed.

Lemma Z_of_le_byte v i :
  Z_of_byte (le_byte v i) = Z.land (Z.shiftr v (8 * Z.of_nat i)) 255.
Proof.
  unfold le_byte. rewrite Z_of_uint8, shift3.
  apply Z.mod_small. apply land_255_range.
Qed.

Lemma read_step_le int_sz sg sz v first value :
  let T := TInt sg sz in
  let W := Z.of_nat (bit_width T) in
  eqm W value (v mod 2 ^ (8 * Z.of_nat first)) ->
  int_range T (read_step int_sz T first (le_byte v first) value)
  /\ eqm W (read_step int_sz T first (le_byte v first) value)
           (v mod 2 ^ (8 * Z.of_nat (S first))).
Proof.
  intros T W Hinv. unfold read_step. split; [apply convert_range|].
  assert (HW : 0 <= W) by (unfold W; lia).
  eapply eqm_trans; [apply convert_eqm|]. fold T W.
  replace (8 * Z.of_nat (S first)) with (8 * Z.of_nat first + 8) by lia.
  rewrite <- lor_next_byte by lia.
  apply eqm_lor; [assumption|assumption|].
  unfold shl. eapply eqm_trans; [apply convert_promote_eqm|]. fold T W.
  rewrite shift3. apply eqm_shiftl; [assumption|lia|].
  eapply eqm_trans; [apply convert_eqm|]. fold T W.
  rewrite Z_of_le_byte. apply eqm_refl.
Qed.

Lemma read_acc_le int_sz sg sz v count :
  let T := TInt sg sz in
  let W := Z.of_nat (bit_width T) in
  forall first value,
    int_range T value ->
    eqm W value (v mod 2 ^ (8 * Z.of_nat first)) ->
    int_range T (read_acc int_sz T count first (le_byte v) value)
    /\ eqm W (read_acc int_sz T count first (le_byte v) value)
             (v mod 2 ^ (8 * Z.of_nat (first + count))).
Proof.
  intros T W. induction count as [|n IH]; intros first value Hr Hinv.
  - cbn [read_acc]. rewrite Nat.add_0_r. now split.
  - cbn [read_acc].
    destruct (read_step_le int_sz sg sz v first value Hinv) as [Hr' Hinv'].
    replace (first + S n)%nat with (S first + n)%nat by lia.
    apply IH; assumption.
Qed.

(** Reading back the bytes of [v] gives [v]. *)
Lemma read_acc_roundtrip int_sz sg sz v :
  int_range (TInt sg sz) v ->
  read_acc int_sz (TInt sg sz) (int_bytes sz) 0 (le_byte v) 0 = v.
Proof.
  intros Hv.
  pose proof (bit_width_int sg sz) as HW.
  pose proof (int_bytes_pos sz) as Hb.
  destruct (read_acc_le int_sz sg sz v (int_bytes sz) 0 0) as [Hr He].
  { unfold int_range. destruct (pow2_half (Z.of_nat (bit_width (TInt sg sz))))
      as [E Hh]; [lia|]. destruct sg; lia. }
  { unfold eqm. cbn. now rewrite !Z.mod_1_r. }
  apply (int_range_inj sg sz); [assumption|assumption|].
  eapply eqm_trans; [exact He|].
  cbn [Nat.add]. rewrite <- HW. apply eqm_mod. lia.
Qed.

(** ** Behaviour of the integral overloads on a buffer *)

Lemma lookup_map_seq {A} (f : nat -> A) n i :
  (i < n)%nat -> map f (seq 0 n) !! i = Some (f i).
Proof.
  intros Hi. change (map f (seq 0 n)) with (f <$> seq 0 n).
  rewrite list_lookup_fmap, lookup_seq_lt by lia. reflexivity.
Qed.

Lemma splice_eq (cs cs' : list byte) p n (f : nat -> byte) :
  length cs' = length cs ->
  (p + n <= length cs)%nat ->
  (forall i, (i < n)%nat -> cs' !! (p + i)%nat = Some (f i)) ->
  (forall j, (j < p \/ p + n <= j)%nat -> cs' !! j = cs !! j) ->
  cs' = take p cs ++ map f (seq 0 n) ++ drop (p + n) cs.
Proof.
  intros Hlen Hle Hin Hout. apply list_eq. intros j.
  assert (Ht : length (take p cs) = p) by (apply length_take_le; lia).
  assert (Hm : length (map f (seq 0 n)) = n)
    by (now rewrite length_map, length_seq).
  destruct (decide (j < p)%nat) as [Hj|Hj].
  - rewrite lookup_app_l by lia. rewrite lookup_take_lt by lia.
    apply Hout. lia.
  - rewrite lookup_app_r by lia. rewrite Ht.
    destruct (decide (j < p + n)%nat) as [Hj'|Hj'].
    + rewrite lookup_app_l by lia. rewrite lookup_map_seq by lia.
      replace j with (p + (j - p))%nat at 1 by lia. apply Hin. lia.
    + rewrite lookup_app_r by lia. rewrite Hm, lookup_drop.
      replace (p + n + (j - p - n))%nat with j by lia. apply Hout. lia.
Qed.

(** [write_le] on an integer: defined whenever the [byte_width<T>] cells
    from [buffer] on exist; it stores to exactly those cells, in ascending
    order, the bytes of [value] from the least significant one. *)
Lemma write_le_integral_spec T buffer value m :
  (buffer + byte_width T <= length (cells m))%nat ->
  write_le_integral T buffer value m
  = Some (tt, Mem (take buffer (cells m)
                   ++ le_bytes (byte_width T) value
                   ++ drop (buffer + byte_width T) (cells m))
                  (accesses m ++ seq buffer (byte_width T))).
Proof.
  intros Hlen. destruct m as [cs acc]. cbn [cells accesses] in *.
  destruct (store_loop buffer value (byte_width T) 0 cs acc)
    as (cs' & Hrun & Hl & Hin & Hout); [lia|].
  unfold write_le_integral. fold (le_byte value).
  change (fun (i : nat) (_ : ()) =>
            store (buffer + i)
              (uint8_of_Z
                 (Z.land (Z.shiftr value (Z.shiftl (Z.of_nat i) 3)) 255)))
    with (fun (i : nat) (_ : ()) => store (buffer + i) (le_byte value i)).
  rewrite Hrun, Nat.add_0_r. do 3 f_equal.
  apply splice_eq; [assumption|assumption| |].
  - intros i Hi. apply Hin. lia.
  - intros j Hj. apply Hout. lia.
Qed.

Lemma lookup_le_bytes_splice (cs : list byte) p n v i :
  (p + n <= length cs)%nat -> (i < n)%nat ->
  (take p cs ++ le_bytes n v ++ drop (p + n) cs) !! (p + i)%nat
  = Some (le_byte v i).
Proof.
  intros Hle Hi.
  assert (Ht : length (take p cs) = p) by (apply length_take_le; lia).
  rewrite lookup_app_r by lia. rewrite Ht.
  replace (p + i - p)%nat with i by lia.
  unfold le_bytes.
  rewrite lookup_app_l by (rewrite length_map, length_seq; lia).
  apply lookup_map_seq. lia.
Qed.

Lemma length_le_bytes_splice (cs : list byte) p n v :
  (p + n <= length cs)%nat ->
  length (take p cs ++ le_bytes n v ++ drop (p + n) cs) = length cs.
Proof.
  intros Hle. unfold le_bytes.
  rewrite !length_app, length_take_le, length_map, length_seq, length_drop
    by lia.
  lia.
Qed.

(** [read_le] on an integer: defined whenever the [byte_width<T>] cells
    from [buffer] on exist; it loads exactly those cells, in ascending
    order, and leaves the buffer as it was. *)
Lemma read_le_integral_spec int_sz T buffer m get :
  (forall i, (i < byte_width T)%nat ->
             cells m !! (buffer + i)%nat = Some (get i)) ->
  read_le_integral int_sz T buffer m
  = Some (read_acc int_sz T (byte_width T) 0 get 0,
          Mem (cells m) (accesses m ++ seq buffer (byte_width T))).
Proof.
  intros Hget. destruct m as [cs acc]. cbn [cells accesses] in *.
  unfold read_le_integral.
  rewrite (load_loop int_sz T buffer get (byte_width T) 0 0 cs acc).
  - now rewrite Nat.add_0_r.
  - intros i Hi. apply Hget. lia.
Qed.

Lemma read_le_integral_total int_sz T buffer m :
  (buffer + byte_width T <= length (cells m))%nat ->
  exists value,
    read_le_integral int_sz T buffer m
    = Some (value, Mem (cells m) (accesses m ++ seq buffer (byte_width T))).
Proof.
  intros Hlen.
  eexists. apply (read_le_integral_spec int_sz T buffer m
                    (fun i => default x00 (cells m !! (buffer + i)%nat))).
  intros i Hi.
  destruct (lookup_lt_is_Some_2 (cells m) (buffer + i)%nat) as [b Hb]; [lia|].
  now rewrite Hb.
Qed.

(** Decoding the bytes of an integer of type [T], for each integral [T]. *)
Lemma read_acc_integral int_sz T v :
  is_integral T = true -> int_range T v ->
  read_acc int_sz T (byte_width T) 0 (le_byte v) 0 = v.
Proof.
  intros HT Hv. destruct T as [|sg sz| | |n]; try discriminate.
  - unfold int_range in Hv.
    assert (Hc : v = 0 \/ v = 1) by lia.
    destruct Hc as [-> | ->]; destruct int_sz; reflexivity.
  - rewrite byte_width_int. now apply read_acc_roundtrip.
Qed.

(** ** Reinterpreting a floating-point object as an integer *)

Lemma float_fields T :
  is_floating_point T = true ->
  0 <= exp_bits T /\ 0 <= frac_bits T
  /\ exp_bits T + frac_bits T + 1 = Z.of_nat (bit_width T).
Proof. destruct T; try discriminate; intros _; cbn; lia. Qed.

Lemma float_to_bits_testbit T f i :
  is_floating_point T = true -> float_range T f -> 0 <= i ->
  Z.testbit (float_to_bits T f) i
  = if i <? frac_bits T then Z.testbit (fraction f) i
    else if i <? exp_bits T + frac_bits T
         then Z.testbit (biased_exp f) (i - frac_bits T)
         else if i =? exp_bits T + frac_bits T then sign f else false.
Proof.
  intros HT [He Hf] Hi. destruct (float_fields T HT) as (He0 & Hf0 & _).
  unfold float_to_bits.
  rewrite !Z.lor_spec, !Z.shiftl_spec by lia.
  destruct (Z.ltb_spec i (frac_bits T)).
  - rewrite !Z.testbit_neg_r by lia. reflexivity.
  - rewrite (testbit_above (fraction f) (frac_bits T) i) by lia.
    rewrite orb_false_r.
    destruct (Z.ltb_spec i (exp_bits T + frac_bits T)).
    + rewrite Z.testbit_neg_r by lia. reflexivity.
    + rewrite (testbit_above (biased_exp f) (exp_bits T)) by lia.
      rewrite orb_false_r.
      destruct (Z.eqb_spec i (exp_bits T + frac_bits T)) as [->|Hne].
      * rewrite Z.sub_diag. apply Z.b2z_bit0.
      * apply (testbit_above _ 1); [destruct (sign f); cbn; lia|lia].
Qed.

(** The bit pattern of a floating-point object fits the unsigned integer
    of its width. *)
Lemma float_to_bits_range T f :
  is_floating_point T = true -> float_range T f ->
  0 <= float_to_bits T f < 2 ^ Z.of_nat (bit_width T).
Proof.
  intros HT Hr. destruct (float_fields T HT) as (He0 & Hf0 & HW).
  assert (E : float_to_bits T f
              = float_to_bits T f mod 2 ^ Z.of_nat (bit_width T)).
  { apply Z.bits_inj'. intros i Hi.
    rewrite Z.testbit_mod_pow2 by lia.
    destruct (Z.ltb_spec i (Z.of_nat (bit_width T))); [reflexivity|].
    rewrite float_to_bits_testbit by assumption.
    destruct (Z.ltb_spec i (frac_bits T)); [lia|].
    destruct (Z.ltb_spec i (exp_bits T + frac_bits T)); [lia|].
    destruct (Z.eqb_spec i (exp_bits T + frac_bits T)); [lia|reflexivity]. }
  rewrite E. apply Z.mod_pos_bound. apply Z.pow_pos_nonneg; lia.
Qed.

(** Reinterpreting there and back gives the same object. *)
Lemma float_of_to_bits T f :
  is_floating_point T = true -> float_range T f ->
  float_of_bits T (float_to_bits T f) = f.
Proof.
  intros HT Hr. destruct (float_fields T HT) as (He0 & Hf0 & HW).
  pose proof Hr as [He Hf].
  destruct f as [s e m]. cbn [sign biased_exp fraction] in *.
  unfold float_of_bits. f_equal.
  - rewrite float_to_bits_testbit by (assumption || lia). cbn [sign].
    destruct (Z.ltb_spec (exp_bits T + frac_bits T) (frac_bits T)); [lia|].
    rewrite Z.ltb_irrefl, Z.eqb_refl. reflexivity.
  - apply Z.bits_inj'. intros i Hi.
    rewrite Z.land_spec, Z.shiftr_spec, Z.testbit_ones_nonneg by lia.
    rewrite float_to_bits_testbit by (assumption || lia).
    cbn [sign biased_exp fraction].
    destruct (Z.ltb_spec (i + frac_bits T) (frac_bits T)); [lia|].
    destruct (Z.ltb_spec i (exp_bits T)).
    + destruct (Z.ltb_spec (i + frac_bits T) (exp_bits T + frac_bits T));
        [|lia].
      replace (i + frac_bits T - frac_bits T) with i by lia.
      apply andb_true_r.
    + rewrite andb_false_r. symmetry.
      apply (testbit_above e (exp_bits T)); lia.
  - apply Z.bits_inj'. intros i Hi.
    rewrite Z.land_spec, Z.testbit_ones_nonneg by lia.
    rewrite float_to_bits_testbit by (assumption || lia).
    cbn [sign biased_exp fraction].
    destruct (Z.ltb_spec i (frac_bits T)).
    + apply andb_true_r.
    + rewrite andb_false_r. symmetry.
      apply (testbit_above m (frac_bits T)); lia.
Qed.

(** ** The codec on scalar values *)

Lemma read_le_supported int_sz T :
  is_Some (read_le int_sz T) <-> supported T.
Proof.
  unfold supported.
  destruct T as [|sg sz| | |n]; cbn; split; intros H;
    try (now eauto); try (destruct H as [H|H]; discriminate H);
    destruct H as [x Hx]; discriminate Hx.
Qed.

Lemma write_le_supported T : is_Some (write_le T) <-> supported T.
Proof.
  unfold supported.
  destruct T as [|sg sz| | |n]; cbn; split; intros H;
    try (now eauto); try (destruct H as [H|H]; discriminate H);
    destruct H as [x Hx]; discriminate Hx.
Qed.

Lemma read_le_float int_sz :
  read_le int_sz TFloat
  = Some (fun buffer =>
            bind (read_le_integral int_sz uint32_t buffer)
              (fun value => ret (VFloat (float_of_bits TFloat value)))).
Proof. reflexivity. Qed.

Lemma write_le_float :
  write_le TFloat
  = Some (fun buffer value =>
            match value with
            | VFloat f =>
                bind (write_le_integral uint32_t buffer
                        (float_to_bits TFloat f))
                  (fun _ => undefined)
            | VInt _ => undefined
            end).
Proof. reflexivity. Qed.

(** The floating-point overload of [write_le] never has a defined
    result. *)
Lemma write_le_float_undefined wr buffer v m :
  write_le TFloat = Some wr -> wr buffer v m = None.
Proof.
  rewrite write_le_float. intros H. injection H as <-.
  destruct v as [z|f]; [reflexivity|]. unfold bind.
  now destruct (write_le_integral uint32_t buffer _ m) as [[[] m']|].
Qed.

Lemma write_le_integral_eq T :
  is_integral T = true ->
  write_le T
  = Some (fun buffer value =>
            match value with
            | VInt z => write_le_integral T buffer z
            | VFloat _ => undefined
            end).
Proof. intros HT. unfold write_le. now rewrite HT. Qed.

Lemma byte_width_pos T : supported T -> (1 <= byte_width T <= 8)%nat.
Proof.
  intros [H| ->]; [|cbn; lia].
  destruct T as [|sg sz| | |n]; try discriminate; [cbn; lia|].
  rewrite byte_width_int. apply int_bytes_pos.
Qed.

Lemma write_le_double : write_le TDouble = None.
Proof. reflexivity. Qed.

Lemma read_le_double int_sz : read_le int_sz TDouble = None.
Proof. reflexivity. Qed.

Lemma write_le_spec T wr v buffer m :
  write_le T = Some wr -> is_integral T = true -> representable T v ->
  (buffer + byte_width T <= length (cells m))%nat ->
  wr buffer v m
  = Some (tt, Mem (take buffer (cells m)
                   ++ le_bytes (byte_width T) (scalar_bits T v)
                   ++ drop (buffer + byte_width T) (cells m))
                  (accesses m ++ seq buffer (byte_width T))).
Proof.
  intros Hwr HT Hv Hlen. rewrite (write_le_integral_eq T HT) in Hwr.
  injection Hwr as <-. destruct v as [z|f].
  - now apply write_le_integral_spec.
  - destruct Hv as [HF _]. destruct T; discriminate.
Qed.

Lemma read_le_spec int_sz T rd v buffer m :
  read_le int_sz T = Some rd -> representable T v ->
  (forall i, (i < byte_width T)%nat ->
             cells m !! (buffer + i)%nat = Some (le_byte (scalar_bits T v) i)) ->
  rd buffer m
  = Some (v, Mem (cells m) (accesses m ++ seq buffer (byte_width T))).
Proof.
  intros Hrd Hv Hget. destruct v as [z|f]; destruct Hv as [HT Hr].
  - unfold read_le in Hrd. rewrite HT in Hrd. injection Hrd as <-.
    cbn [scalar_bits] in Hget. unfold bind.
    rewrite (read_le_integral_spec int_sz T buffer m _ Hget).
    unfold ret. now rewrite read_acc_integral.
  - destruct T as [|sg sz| | |n]; try discriminate HT.
    + rewrite read_le_float in Hrd. injection Hrd as <-.
      cbn [scalar_bits] in Hget. unfold bind.
      rewrite (read_le_integral_spec int_sz uint32_t buffer m _ Hget).
      unfold ret.
      rewrite (read_acc_integral int_sz uint32_t) by
        (try reflexivity; apply (float_to_bits_range TFloat f HT Hr)).
      now rewrite float_of_to_bits.
    + rewrite read_le_double in Hrd. discriminate Hrd.
Qed.

Lemma read_le_total int_sz T rd buffer m :
  read_le int_sz T = Some rd ->
  (buffer + byte_width T <= length (cells m))%nat ->
  exists v,
    rd buffer m
    = Some (v, Mem (cells m) (accesses m ++ seq buffer (byte_width T))).
Proof.
  intros Hrd Hlen. destruct (is_integral T) eqn:HT.
  - unfold read_le in Hrd. rewrite HT in Hrd. injection Hrd as <-.
    destruct (read_le_integral_total int_sz T buffer m Hlen) as [z Hz].
    exists (VInt z). unfold bind. now rewrite Hz.
  - destruct T as [|sg sz| | |n]; try discriminate.
    rewrite read_le_float in Hrd. injection Hrd as <-.
    destruct (read_le_integral_total int_sz uint32_t buffer m Hlen)
      as [z Hz].
    exists (VFloat (float_of_bits TFloat z)). unfold bind. now rewrite Hz.
Qed.

(** C1. The round trip fails for every floating-point value.
    [write_le<float>] is declared to return a value and returns none
    (the integral overload returns [void]): for no value and no buffer
    does it have a defined result, negative zero and a four-byte buffer
    included, so there is no encoding that [read_le<float>] could be
    given. *)
Theorem float_roundtrip_undefined :
  exists wr,
    write_le TFloat = Some wr
    /\ (forall buffer v m, wr buffer v m = None)
    /\ representable TFloat (VFloat (Ieee true 0 0))
    /\ wr 0%nat (VFloat (Ieee true 0 0)) (Mem [x00; x00; x00; x00] [])
       = None.
Proof.
  eexists. split; [apply write_le_float|].
  split; [intros buffer v m;
          exact (write_le_float_undefined _ buffer v m write_le_float)|].
  split; [|reflexivity].
  split; [reflexivity|]. unfold float_range. cbn. lia.
Qed.

(** ** Buffers that are too short *)

Lemma load_loop_short int_sz T p count :
  forall first value cs acc,
    (1 <= count)%nat -> (length cs < p + first + count)%nat ->
    for_loop count first
      (fun i value =>
         bind (load (p + i))
           (fun b =>
              ret (convert T
                     (Z.lor value
                        (shl (promote int_sz T) (convert T (Z_of_byte b))
                           (Z.shiftl (Z.of_nat i) 3))))))
      value (Mem cs acc)
    = None.
Proof.
  induction count as [|n IH]; intros first value cs acc Hc Hlen; [lia|].
  cbn [for_loop]. unfold bind at 1. unfold bind at 1. unfold load at 1.
  cbn [cells accesses].
  destruct (cs !! (p + first)%nat) as [b|] eqn:Hb; [|reflexivity].
  apply lookup_lt_Some in Hb. unfold ret at 1.
  apply IH; lia.
Qed.

Lemma store_loop_short p v count :
  forall first cs acc,
    (1 <= count)%nat -> (length cs < p + first + count)%nat ->
    for_loop count first (fun i _ => store (p + i) (le_byte v i)) tt
      (Mem cs acc)
    = None.
Proof.
  induction count as [|n IH]; intros first cs acc Hc Hlen; [lia|].
  cbn [for_loop]. unfold bind at 1. unfold store at 1. cbn [cells accesses].
  destruct (decide (p + first < length cs)%nat) as [Hin|Hout];
    [|reflexivity].
  apply IH; [lia|]. rewrite length_insert. lia.
Qed.

(** With fewer than [byte_width<T>] bytes from the pointer on, neither
    function has a defined result. *)
Lemma codec_short_buffer int_sz T buffer m rd wr v :
  read_le int_sz T = Some rd -> write_le T = Some wr ->
  representable T v ->
  (length (cells m) < buffer + byte_width T)%nat ->
  rd buffer m = None /\ wr buffer v m = None.
Proof.
  intros Hrd Hwr Hv Hlen. destruct m as [cs acc]. cbn [cells] in Hlen.
  assert (Hs : supported T) by (apply (read_le_supported int_sz); eauto).
  pose proof (byte_width_pos T Hs) as Hbw.
  assert (HR : forall U, byte_width U = byte_width T ->
                 read_le_integral int_sz U buffer (Mem cs acc) = None).
  { intros U HU. unfold read_le_integral. rewrite HU.
    apply load_loop_short; lia. }
  assert (HW : forall U z, byte_width U = byte_width T ->
                 write_le_integral U buffer z (Mem cs acc) = None).
  { intros U z HU. unfold write_le_integral. rewrite HU.
    apply (store_loop_short buffer z); lia. }
  destruct v as [z|f]; destruct Hv as [HT Hr].
  - unfold read_le in Hrd. unfold write_le in Hwr. rewrite HT in Hrd, Hwr.
    injection Hrd as <-. injection Hwr as <-.
    unfold bind. rewrite HR by reflexivity. split; [reflexivity|].
    now apply HW.
  - destruct T as [|sg sz| | |n]; try discriminate HT.
    + split; [|now apply write_le_float_undefined].
      rewrite read_le_float in Hrd. injection Hrd as <-.
      unfold bind. now rewrite HR.
    + discriminate Hrd.
Qed.

(** C2. For every integral type [T] and every integer [v],
    [write_le<T>(buffer, v)] stores exactly [byte_width<T>] bytes, where
    [byte_width<T>] is [bit_width<T> / 8] rounded up, whatever [v] is;
    the byte at offset [i] is [(v >> 8*i) & 0xff], the rest of the buffer
    is left alone; and the [uint32_t] value [0x01020304] is stored as
    [04 03 02 01]. *)
Theorem write_le_little_endian T v buffer m :
  is_integral T = true ->
  (buffer + byte_width T <= length (cells m))%nat ->
  (8 * (byte_width T - 1) < bit_width T <= 8 * byte_width T)%nat
  /\ (exists wr cs',
         write_le T = Some wr
         /\ wr buffer (VInt v) m
            = Some (tt, Mem cs' (accesses m ++ seq buffer (byte_width T)))
         /\ length cs' = length (cells m)
         /\ (forall i, (i < byte_width T)%nat ->
               exists b, cs' !! (buffer + i)%nat = Some b
                         /\ Z_of_byte b
                            = Z.land (Z.shiftr v (8 * Z.of_nat i)) 255)
         /\ (forall j, (j < buffer \/ buffer + byte_width T <= j)%nat ->
               cs' !! j = cells m !! j))
  /\ (exists wr,
         write_le uint32_t = Some wr
         /\ forall b0 b1 b2 b3,
              wr 0%nat (VInt 0x01020304) (Mem [b0; b1; b2; b3] [])
              = Some (tt, Mem [x04; x03; x02; x01] [0; 1; 2; 3]%nat)).
Proof.
  intros HT Hlen. split; [|split].
  - destruct T as [|sg sz| | |n]; try discriminate; [cbn; lia|].
    destruct sz; cbn; lia.
  - eexists. eexists. split.
    + unfold write_le. rewrite HT. reflexivity.
    + cbn beta iota. split; [now apply write_le_integral_spec|].
      split; [now apply length_le_bytes_splice|]. split.
      * intros i Hi. exists (le_byte v i).
        split; [now apply lookup_le_bytes_splice|apply Z_of_le_byte].
      * intros j [Hj|Hj].
        -- rewrite lookup_app_l by (rewrite length_take_le; lia).
           now apply lookup_take_lt.
        -- assert (Ht : length (take buffer (cells m)) = buffer)
             by (apply length_take_le; lia).
           assert (Hb : length (le_bytes (byte_width T) v) = byte_width T)
             by (unfold le_bytes; now rewrite length_map, length_seq).
           rewrite lookup_app_r by lia. rewrite lookup_app_r by lia.
           rewrite lookup_drop, Ht, Hb. f_equal. lia.
  - eexists. split; [reflexivity|]. intros. reflexivity.
Qed.

Lemma write_le_little_endian_witness :
  (8 * (byte_width int16_t - 1) < bit_width int16_t
   <= 8 * byte_width int16_t)%nat
  /\ (exists wr cs',
         write_le int16_t = Some wr
         /\ wr 1%nat (VInt (-2)) (Mem [x11; x22; x33; x44] [5%nat])
            = Some (tt, Mem cs' ([5%nat] ++ seq 1 (byte_width int16_t)))
         /\ length cs' = length [x11; x22; x33; x44]
         /\ (forall i, (i < byte_width int16_t)%nat ->
               exists b, cs' !! (1 + i)%nat = Some b
                         /\ Z_of_byte b
                            = Z.land (Z.shiftr (-2) (8 * Z.of_nat i)) 255)
         /\ (forall j, (j < 1 \/ 1 + byte_width int16_t <= j)%nat ->
               cs' !! j = [x11; x22; x33; x44] !! j))
  /\ (exists wr,
         write_le uint32_t = Some wr
         /\ forall b0 b1 b2 b3,
              wr 0%nat (VInt 0x01020304) (Mem [b0; b1; b2; b3] [])
              = Some (tt, Mem [x04; x03; x02; x01] [0; 1; 2; 3]%nat)).
Proof.
  apply (write_le_little_endian int16_t (-2) 1
           (Mem [x11; x22; x33; x44] [5%nat])).
  - reflexivity.
  - cbn. lia.
Defined.

(** C3 fails at [double]: [unsigned_int_of_size<64>] has no definition, so
    neither overload for [double] compiles. *)
Lemma codec_rejects_double : ~ codec_domain_as_specified.
Proof.
  intros H.
  destruct (proj2 (H I32 TDouble)) as [[rd Hrd] _]; [now right; right|].
  discriminate Hrd.
Qed.

(** C3, amended. [read_le] and [write_le] are defined for every integral
    type (the fixed-width signed and unsigned integers of 8, 16, 32 and 64
    bits, and [bool]) and for IEEE-754 single precision; every other type,
    double precision among them, is rejected when the program is compiled:
    there is then no function that could fail when run. *)
Theorem codec_domain int_sz T :
  (is_Some (read_le int_sz T)
   <-> (T = TBool \/ (exists sg sz, T = TInt sg sz) \/ T = TFloat))
  /\ (is_Some (write_le T)
      <-> (T = TBool \/ (exists sg sz, T = TInt sg sz) \/ T = TFloat))
  /\ read_le int_sz TDouble = None
  /\ write_le TDouble = None.
Proof.
  assert (E : supported T
              <-> (T = TBool \/ (exists sg sz, T = TInt sg sz) \/ T = TFloat)).
  { unfold supported. split.
    - intros [H| ->]; [|now right; right].
      destruct T as [|sg sz| | |n]; try discriminate; [now left|].
      right; left. now exists sg, sz.
    - intros [->|[(sg & sz & ->)| ->]]; [now left|now left|now right]. }
  split; [|split; [|split; reflexivity]].
  - rewrite read_le_supported. exact E.
  - rewrite write_le_supported. exact E.
Qed.



(** ** Request frames *)

Lemma length_le_bytes n v : length (le_bytes n v) = n.
Proof. unfold le_bytes. now rewrite length_map, length_seq. Qed.

Lemma frame_layout (cs A E C : list byte) n :
  length cs = (4 + n)%nat -> length A = 2%nat -> length E = n ->
  length C = 2%nat ->
  let cs1 := take 0 cs ++ A ++ drop (0 + 2) cs in
  let cs2 := take (0 + 2) cs1 ++ E ++ drop (0 + 2 + n) cs1 in
  take (0 + (4 + n) - 2) cs2 ++ C ++ drop (0 + (4 + n) - 2 + 2) cs2
  = A ++ E ++ C.
Proof.
  intros Hcs HA HE HC cs1 cs2.
  assert (E1 : cs1 = A ++ drop 2 cs) by reflexivity.
  assert (E2 : cs2 = A ++ E ++ drop n (drop 2 cs)).
  { unfold cs2. rewrite E1. f_equal.
    - apply take_app_length'. now rewrite HA.
    - f_equal. apply drop_app_add'. now rewrite HA. }
  replace (0 + (4 + n) - 2)%nat with (2 + n)%nat by lia.
  rewrite E2.
  assert (HR : length (drop n (drop 2 cs)) = 2%nat)
    by (rewrite !length_drop; lia).
  rewrite (drop_ge _ (2 + n + 2)) by (rewrite !length_app; lia).
  rewrite app_nil_r, (app_assoc A E).
  rewrite take_app_length' by (rewrite length_app; lia).
  now rewrite <- app_assoc.
Qed.

Lemma uint16_representable z : representable uint16_t (VInt (convert uint16_t z)).
Proof. split; [reflexivity|apply convert_range]. Qed.

Section EndpointFacts.

Variable int_sz : int_size.
Variable endpoint_type : Z -> option ctype.
Variable json_crc : Z.
Variable indeterminate : nat -> byte.

Lemma local_array_length size :
  length (cells (local_array indeterminate size)) = size.
Proof. unfold local_array. cbn. now rewrite length_map, length_seq. Qed.

(** The request [read_property] makes and what it does with the reply. *)
Lemma read_property_unfold IPropertyId T rd :
  endpoint_type IPropertyId = Some T ->
  read_le int_sz T = Some rd ->
  exists rp,
    read_property int_sz endpoint_type json_crc indeterminate IPropertyId
    = Some rp
    /\ forall num value,
         rp num value
         = I2C_transaction
             {| slave_addr := convert uint8_t (i2c_addr + num);
                tx_buffer := Some (read_frame IPropertyId json_crc);
                tx_length := 4;
                rx_buffer := Some (byte_width T);
                rx_length := byte_width T |}
             (fun r =>
                if negb (success r) then Return (false, value)
                else
                  match value with
                  | Some _ =>
                      match rd 0%nat (received r (byte_width T)) with
                      | Some (v, _) => Return (true, Some v)
                      | None => Undefined
                      end
                  | None => Return (true, None)
                  end).
Proof.
  intros HT Hrd. unfold read_property. rewrite HT, Hrd.
  destruct (proj2 (write_le_supported uint16_t)) as [w Hw];
    [now left|].
  rewrite Hw. eexists. split; [reflexivity|]. intros num value.
  cbn beta zeta. unfold bind.
  rewrite (write_le_spec uint16_t w _ 0 _ Hw eq_refl
             (uint16_representable _))
    by (rewrite local_array_length; cbn; lia).
  rewrite (write_le_spec uint16_t w _ _ _ Hw eq_refl
             (uint16_representable _))
    by (cbn; lia).
  reflexivity.
Qed.

(** The request [write_property] makes and what it does with the reply. *)
Lemma write_property_unfold IPropertyId T wr :
  endpoint_type IPropertyId = Some T ->
  write_le T = Some wr -> is_integral T = true ->
  exists wp,
    write_property endpoint_type json_crc indeterminate IPropertyId = Some wp
    /\ forall num value,
         representable T value ->
         wp num value
         = I2C_transaction
             {| slave_addr := convert uint8_t (i2c_addr + num);
                tx_buffer := Some (write_frame T IPropertyId value json_crc);
                tx_length := 4 + byte_width T;
                rx_buffer := None;
                rx_length := 0 |}
             (fun r => Return (success r)).
Proof.
  intros HT Hwr HI. unfold write_property. rewrite HT, Hwr.
  destruct (proj2 (write_le_supported uint16_t)) as [w Hw];
    [now left|].
  rewrite Hw. eexists. split; [reflexivity|]. intros num value Hv.
  cbn beta zeta. unfold bind.
  pose proof (local_array_length (4 + byte_width T)) as Hl.
  rewrite (write_le_spec uint16_t w _ 0 _ Hw eq_refl
             (uint16_representable _))
    by (rewrite Hl; cbn; lia).
  cbn [cells accesses scalar_bits].
  change (byte_width uint16_t) with 2%nat.
  set (cs := cells (local_array indeterminate (4 + byte_width T))) in *.
  set (A := le_bytes 2 (convert uint16_t IPropertyId)).
  set (cs1 := take 0 cs ++ A ++ drop (0 + 2) cs).
  assert (Hl1 : length cs1 = (4 + byte_width T)%nat).
  { unfold cs1, A. rewrite !length_app, length_le_bytes, length_drop, Hl.
    change (length (take 0 cs)) with 0%nat. lia. }
  rewrite (write_le_spec T wr value _ _ Hwr HI Hv) by (cbn [cells]; lia).
  cbn [cells accesses].
  set (E := le_bytes (byte_width T) (scalar_bits T value)).
  set (cs2 := take (0 + 2) cs1 ++ E ++ drop (0 + 2 + byte_width T) cs1).
  assert (Hl2 : length cs2 = (4 + byte_width T)%nat).
  { unfold cs2, E.
    rewrite !length_app, length_le_bytes, length_drop, length_take_le by lia.
    lia. }
  rewrite (write_le_spec uint16_t w _ _ _ Hw eq_refl
             (uint16_representable _))
    by (cbn [cells]; change (byte_width uint16_t) with 2%nat; lia).
  cbn [cells accesses scalar_bits].
  change (byte_width uint16_t) with 2%nat.
  unfold cs2, cs1.
  rewrite (frame_layout cs A E _ (byte_width T));
    [reflexivity|assumption|apply length_le_bytes|apply length_le_bytes
    |apply length_le_bytes].
Qed.

(** At an endpoint of type [float], [write_property] does not get as far
    as its transaction: its call of [write_le<float>] has no defined
    result. *)
Lemma write_property_float IPropertyId :
  endpoint_type IPropertyId = Some TFloat ->
  exists wp,
    write_property endpoint_type json_crc indeterminate IPropertyId = Some wp
    /\ forall num value, wp num value = Undefined.
Proof.
  intros HT. unfold write_property. rewrite HT.
  destruct (proj2 (write_le_supported uint16_t)) as [w Hw];
    [now left|].
  destruct (proj2 (write_le_supported TFloat)) as [wrF HwF];
    [now right|].
  rewrite Hw, HwF. eexists. split; [reflexivity|]. intros num value.
  cbn beta zeta. unfold bind.
  rewrite (write_le_spec uint16_t w _ 0 _ Hw eq_refl
             (uint16_representable _))
    by (rewrite local_array_length; cbn; lia).
  now rewrite (write_le_float_undefined wrF _ value _ HwF).
Qed.

End EndpointFacts.

(** ** What the accessors do on the bus *)

Lemma decode_le_bytes int_sz T v :
  supported T -> representable T v ->
  decode int_sz T (le_bytes (byte_width T) (scalar_bits T v)) = Some v.
Proof.
  intros HT Hv. unfold decode.
  destruct (proj2 (read_le_supported int_sz T) HT) as [rd Hrd]. rewrite Hrd.
  rewrite (read_le_spec int_sz T rd v 0 _ Hrd Hv); [reflexivity|].
  intros i Hi. cbn [cells]. unfold le_bytes. now apply lookup_map_seq.
Qed.

Lemma decode_uint16 int_sz z :
  decode int_sz uint16_t (le_bytes 2 (convert uint16_t z))
  = Some (VInt (convert uint16_t z)).
Proof.
  apply (decode_le_bytes int_sz uint16_t (VInt (convert uint16_t z)));
    [now left|apply uint16_representable].
Qed.

Lemma convert_uint16_small z : 0 <= z < 65536 -> convert uint16_t z = z.
Proof. intros Hz. apply convert_id. cbn. lia. Qed.

Lemma i2c_addr_value : i2c_addr = 0x68.
Proof. reflexivity. Qed.

Lemma slave_addr_value num :
  0 <= num < 256 ->
  convert uint8_t (i2c_addr + num) = (0x68 + num) mod 2 ^ 8
  /\ (num < 152 -> convert uint8_t (i2c_addr + num) = 0x68 + num)
  /\ (152 <= num -> convert uint8_t (i2c_addr + num) = 0x68 + num - 256).
Proof.
  intros Hn. rewrite i2c_addr_value.
  change (convert uint8_t (0x68 + num)) with ((0x68 + num) mod 2 ^ 8).
  change (2 ^ 8) with 256. split; [reflexivity|]. split; intros H.
  - apply Z.mod_small. lia.
  - symmetry. apply (Z.mod_unique _ _ 1); lia.
Qed.

Section AccessorFacts.

Variable int_sz : int_size.
Variable endpoint_type : Z -> option ctype.
Variable json_crc : Z.
Variable indeterminate : nat -> byte.

Lemma received_length r size : length (cells (received r size)) = size.
Proof. unfold received. cbn. now rewrite length_map, length_seq. Qed.

Lemma read_property_run IPropertyId T :
  endpoint_type IPropertyId = Some T -> supported T ->
  exists rp,
    read_property int_sz endpoint_type json_crc indeterminate IPropertyId
    = Some rp
    /\ forall num value,
         (exists k,
             rp num value
             = I2C_transaction (read_request T IPropertyId json_crc num) k
             /\ (forall r, success r = false -> k r = Return (false, value))
             /\ (value = None -> forall r, k r = Return (success r, None)))
         /\ forall bus,
              calls bus (rp num value)
              = [read_request T IPropertyId json_crc num]
              /\ exists final,
                   run bus (rp num value)
                   = Some (success
                             (bus (read_request T IPropertyId json_crc num)),
                           final)
                   /\ (success
                         (bus (read_request T IPropertyId json_crc num))
                       = false -> final = value).
Proof.
  intros HT Hs.
  destruct (proj2 (read_le_supported int_sz T) Hs) as [rd Hrd].
  destruct (read_property_unfold int_sz endpoint_type json_crc indeterminate
              IPropertyId T rd HT Hrd) as (rp & Hrp & Heq).
  exists rp. split; [exact Hrp|]. intros num value.
  fold (read_request T IPropertyId json_crc num) in Heq.
  split.
  - eexists. split; [apply Heq|]. cbn beta. split.
    + intros r Hr. now rewrite Hr.
    + intros -> r. now destruct (success r).
  - intros bus. rewrite Heq.
    fold (read_request T IPropertyId json_crc num).
    cbn [calls run].
    set (r := bus (read_request T IPropertyId json_crc num)).
    destruct (success r) eqn:Hr; cbn [negb].
    + destruct value as [old|].
      * destruct (read_le_total int_sz T rd 0 (received r (byte_width T)) Hrd)
          as [v Hv]; [rewrite received_length; lia|].
        rewrite Hv. cbn [calls run]. split; [reflexivity|].
        exists (Some v). split; [reflexivity|discriminate].
      * cbn [calls run]. split; [reflexivity|].
        exists None. split; [reflexivity|discriminate].
    + cbn [calls run]. split; [reflexivity|].
      exists value. split; reflexivity.
Qed.

Lemma write_property_run IPropertyId T :
  endpoint_type IPropertyId = Some T -> is_integral T = true ->
  exists wp,
    write_property endpoint_type json_crc indeterminate IPropertyId = Some wp
    /\ forall num value,
         representable T value ->
         wp num value
         = I2C_transaction (write_request T IPropertyId value json_crc num)
             (fun r => Return (success r))
         /\ forall bus,
              calls bus (wp num value)
              = [write_request T IPropertyId value json_crc num]
              /\ run bus (wp num value)
                 = Some (success
                           (bus (write_request T IPropertyId value json_crc
                                   num))).
Proof.
  intros HT HI.
  destruct (proj2 (write_le_supported T) (or_introl HI)) as [wr Hwr].
  destruct (write_property_unfold endpoint_type json_crc indeterminate
              IPropertyId T wr HT Hwr HI) as (wp & Hwp & Heq).
  exists wp. split; [exact Hwp|]. intros num value Hv.
  specialize (Heq num value Hv).
  fold (write_request T IPropertyId value json_crc num) in Heq.
  split; [exact Heq|]. intros bus. rewrite Heq. split; reflexivity.
Qed.

(** What [write_property] does at every endpoint the codec is defined
    for: one transaction at an integral endpoint, none at a [float]
    one. *)
Lemma write_property_cases IPropertyId T :
  endpoint_type IPropertyId = Some T -> supported T ->
  exists wp,
    write_property endpoint_type json_crc indeterminate IPropertyId = Some wp
    /\ forall num value bus,
         representable T value ->
         (is_integral T = true ->
          calls bus (wp num value)
          = [write_request T IPropertyId value json_crc num]
          /\ run bus (wp num value)
             = Some (success
                       (bus (write_request T IPropertyId value json_crc
                               num))))
         /\ (forall rq,
               In rq (calls bus (wp num value)) ->
               rq = write_request T IPropertyId value json_crc num
               /\ run bus (wp num value) = Some (success (bus rq))).
Proof.
  intros HT [HI| ->].
  - destruct (write_property_run IPropertyId T HT HI) as (wp & Hwp & Hrun).
    exists wp. split; [exact Hwp|]. intros num value bus Hv.
    destruct (Hrun num value Hv) as [_ Hbus].
    destruct (Hbus bus) as [Hcalls Hres].
    split; [intros _; now split|].
    intros rq Hin. rewrite Hcalls in Hin. destruct Hin as [<-|[]].
    now split.
  - destruct (write_property_float endpoint_type json_crc indeterminate
                IPropertyId HT) as (wp & Hwp & Hund).
    exists wp. split; [exact Hwp|]. intros num value bus Hv.
    rewrite Hund. split; [discriminate|]. intros rq [].
Qed.

End AccessorFacts.

(** ** The accessors *)

(** C4. At a property whose value type is [float] no request frame is
    built: [write_property] calls [write_le<float>], which is declared to
    return a value and returns none, so the accessor has no defined
    behaviour, for any device and any value, and hands nothing to the
    bus. *)
Theorem write_property_float_undefined endpoint_type json_crc indeterminate
    IPropertyId :
  endpoint_type IPropertyId = Some TFloat ->
  exists wp,
    write_property endpoint_type json_crc indeterminate IPropertyId = Some wp
    /\ (forall num value, wp num value = Undefined)
    /\ (forall num value bus,
          calls bus (wp num value) = [] /\ run bus (wp num value) = None).
Proof.
  intros HT.
  destruct (write_property_float endpoint_type json_crc indeterminate
              IPropertyId HT) as (wp & Hwp & Hund).
  exists wp. split; [exact Hwp|]. split; [exact Hund|].
  intros num value bus. rewrite Hund. split; reflexivity.
Qed.

Lemma write_property_float_undefined_witness :
  exists wp,
    write_property sample_endpoint_type 0x9b40 (fun _ => xff) 6 = Some wp
    /\ (forall num value, wp num value = Undefined)
    /\ (forall num value bus,
          calls bus (wp num value) = [] /\ run bus (wp num value) = None).
Proof.
  apply (write_property_float_undefined sample_endpoint_type 0x9b40
           (fun _ => xff) 6).
  reflexivity.
Defined.

(** X16. At a property whose value type [T] is integral, for every value
    of that type, the frame [write_property] hands to the bus has
    [4 + byte_width<T>] bytes: the property id (as a [uint16_t])
    little-endian in bytes [0, 2), the value in bytes
    [2, 2 + byte_width<T>), the checksum constant little-endian in the
    last two bytes. For property 5 of type [uint16_t] and the value 1000
    the frame is [05 00 e8 03] followed by the two checksum bytes, and
    the three parts decode as 5, 1000 and the checksum. *)
Theorem write_property_frame int_sz endpoint_type json_crc indeterminate
    IPropertyId T value num :
  endpoint_type IPropertyId = Some T -> is_integral T = true ->
  representable T value ->
  exists wp k frame,
    write_property endpoint_type json_crc indeterminate IPropertyId = Some wp
    /\ wp num value
       = I2C_transaction
           {| slave_addr := convert uint8_t (i2c_addr + num);
              tx_buffer := Some frame;
              tx_length := 4 + byte_width T;
              rx_buffer := None;
              rx_length := 0 |} k
    /\ length frame = (4 + byte_width T)%nat
    /\ frame
       = le_bytes 2 (convert uint16_t IPropertyId)
         ++ le_bytes (byte_width T) (scalar_bits T value)
         ++ le_bytes 2 (convert uint16_t json_crc)
    /\ decode int_sz uint16_t (take 2 frame)
       = Some (VInt (convert uint16_t IPropertyId))
    /\ decode int_sz T (take (byte_width T) (drop 2 frame)) = Some value
    /\ decode int_sz uint16_t (drop (2 + byte_width T) frame)
       = Some (VInt (convert uint16_t json_crc))
    /\ (0 <= IPropertyId < 65536 -> convert uint16_t IPropertyId = IPropertyId)
    /\ (0 <= json_crc < 65536 -> convert uint16_t json_crc = json_crc)
    /\ (IPropertyId = 5 -> T = uint16_t -> value = VInt 1000 ->
        exists c0 c1,
          frame = [x05; x00; xe8; x03; c0; c1]
          /\ decode int_sz uint16_t [x05; x00] = Some (VInt 5)
          /\ decode int_sz uint16_t [xe8; x03] = Some (VInt 1000)
          /\ decode int_sz uint16_t [c0; c1]
             = Some (VInt (convert uint16_t json_crc))).
Proof.
  intros HT HI Hv.
  destruct (write_property_run endpoint_type json_crc indeterminate
              IPropertyId T HT HI) as (wp & Hwp & Hrun).
  destruct (Hrun num value Hv) as [Heq _].
  exists wp. eexists. exists (write_frame T IPropertyId value json_crc).
  split; [exact Hwp|]. split; [exact Heq|].
  assert (Hl : forall n z, length (le_bytes n z) = n)
    by apply length_le_bytes.
  unfold write_frame.
  split; [rewrite !length_app, !Hl; lia|]. split; [reflexivity|].
  split; [rewrite take_app_length' by (now rewrite Hl);
          apply decode_uint16|].
  split.
  { rewrite drop_app_length' by (now rewrite Hl).
    rewrite take_app_length' by (now rewrite Hl).
    apply decode_le_bytes; [now left|assumption]. }
  split.
  { rewrite app_assoc.
    rewrite drop_app_length' by (rewrite length_app, !Hl; lia).
    apply decode_uint16. }
  split; [apply convert_uint16_small|].
  split; [apply convert_uint16_small|].
  intros -> -> ->.
  exists (le_byte (convert uint16_t json_crc) 0),
         (le_byte (convert uint16_t json_crc) 1).
  split; [reflexivity|].
  split; [exact (decode_uint16 int_sz 5)|].
  split; [exact (decode_uint16 int_sz 1000)|].
  exact (decode_uint16 int_sz json_crc).
Qed.

Lemma write_property_frame_witness :
  exists wp k frame,
    write_property sample_endpoint_type 0x9b40 (fun _ => xff) 5 = Some wp
    /\ wp 4 (VInt 1000)
       = I2C_transaction
           {| slave_addr := convert uint8_t (i2c_addr + 4);
              tx_buffer := Some frame;
              tx_length := 4 + byte_width uint16_t;
              rx_buffer := None;
              rx_length := 0 |} k
    /\ length frame = (4 + byte_width uint16_t)%nat
    /\ frame
       = le_bytes 2 (convert uint16_t 5)
         ++ le_bytes (byte_width uint16_t) (scalar_bits uint16_t (VInt 1000))
         ++ le_bytes 2 (convert uint16_t 0x9b40)
    /\ decode I16 uint16_t (take 2 frame)
       = Some (VInt (convert uint16_t 5))
    /\ decode I16 uint16_t (take (byte_width uint16_t) (drop 2 frame)) = Some (VInt 1000)
    /\ decode I16 uint16_t (drop (2 + byte_width uint16_t) frame)
       = Some (VInt (convert uint16_t 0x9b40))
    /\ (0 <= 5 < 65536 -> convert uint16_t 5 = 5)
    /\ (0 <= 0x9b40 < 65536 -> convert uint16_t 0x9b40 = 0x9b40)
    /\ (5 = 5 -> uint16_t = uint16_t -> (VInt 1000) = VInt 1000 ->
        exists c0 c1,
          frame = [x05; x00; xe8; x03; c0; c1]
          /\ decode I16 uint16_t [x05; x00] = Some (VInt 5)
          /\ decode I16 uint16_t [xe8; x03] = Some (VInt 1000)
          /\ decode I16 uint16_t [c0; c1]
             = Some (VInt (convert uint16_t 0x9b40))).
Proof.
  apply (write_property_frame I16 sample_endpoint_type 0x9b40 (fun _ => xff)
           5 uint16_t (VInt 1000) 4).
  - reflexivity.
  - reflexivity.
  - split; [reflexivity|]. cbn. lia.
Defined.

(** C5. For every property id whose value type [T] the codec is defined
    for, [read_property] makes one bus transaction; it transmits a frame
    of exactly four bytes, the property id (as a [uint16_t]) little-endian
    in the first two and the checksum constant little-endian in the last
    two, with nothing in between, and asks for exactly [byte_width<T>]
    bytes in return. *)
Theorem read_property_request int_sz endpoint_type json_crc indeterminate
    IPropertyId T num value :
  endpoint_type IPropertyId = Some T -> supported T ->
  exists rp k frame,
    read_property int_sz endpoint_type json_crc indeterminate IPropertyId
    = Some rp
    /\ rp num value
       = I2C_transaction
           {| slave_addr := convert uint8_t (i2c_addr + num);
              tx_buffer := Some frame;
              tx_length := 4;
              rx_buffer := Some (byte_width T);
              rx_length := byte_width T |} k
    /\ (forall bus, length (calls bus (rp num value)) = 1%nat)
    /\ length frame = 4%nat
    /\ frame
       = le_bytes 2 (convert uint16_t IPropertyId)
         ++ le_bytes 2 (convert uint16_t json_crc)
    /\ decode int_sz uint16_t (take 2 frame)
       = Some (VInt (convert uint16_t IPropertyId))
    /\ decode int_sz uint16_t (drop 2 frame)
       = Some (VInt (convert uint16_t json_crc))
    /\ (0 <= IPropertyId < 65536 -> convert uint16_t IPropertyId = IPropertyId)
    /\ (0 <= json_crc < 65536 -> convert uint16_t json_crc = json_crc).
Proof.
  intros HT Hs.
  destruct (read_property_run int_sz endpoint_type json_crc indeterminate
              IPropertyId T HT Hs) as (rp & Hrp & Hrun).
  destruct (Hrun num value) as [(k & Heq & _) Hbus].
  exists rp, k, (read_frame IPropertyId json_crc).
  split; [exact Hrp|]. split; [exact Heq|].
  split; [intros bus; now rewrite (proj1 (Hbus bus))|].
  unfold read_frame.
  split; [now rewrite length_app, !length_le_bytes|].
  split; [reflexivity|].
  split; [rewrite take_app_length' by (now rewrite length_le_bytes);
          apply decode_uint16|].
  split; [rewrite drop_app_length' by (now rewrite length_le_bytes);
          apply decode_uint16|].
  split; apply convert_uint16_small.
Qed.

Lemma read_property_request_witness :
  exists rp k frame,
    read_property I32 sample_endpoint_type 0x9b40 (fun _ => xff) 6
    = Some rp
    /\ rp 0 (Some (VFloat (Ieee false 0 0)))
       = I2C_transaction
           {| slave_addr := convert uint8_t (i2c_addr + 0);
              tx_buffer := Some frame;
              tx_length := 4;
              rx_buffer := Some (byte_width TFloat);
              rx_length := byte_width TFloat |} k
    /\ (forall bus, length (calls bus (rp 0 (Some (VFloat (Ieee false 0 0))))) = 1%nat)
    /\ length frame = 4%nat
    /\ frame
       = le_bytes 2 (convert uint16_t 6)
         ++ le_bytes 2 (convert uint16_t 0x9b40)
    /\ decode I32 uint16_t (take 2 frame)
       = Some (VInt (convert uint16_t 6))
    /\ decode I32 uint16_t (drop 2 frame)
       = Some (VInt (convert uint16_t 0x9b40))
    /\ (0 <= 6 < 65536 -> convert uint16_t 6 = 6)
    /\ (0 <= 0x9b40 < 65536 -> convert uint16_t 0x9b40 = 0x9b40).
Proof.
  apply (read_property_request I32 sample_endpoint_type 0x9b40 (fun _ => xff)
           6 TFloat 0 (Some (VFloat (Ieee false 0 0)))).
  - reflexivity.
  - right. reflexivity.
Defined.



(** C7. For a device index whose sum with the base address fits the seven
    bits of a bus address (the indices 0 to 7 of the devices on one bus
    among them), the address that [read_property] hands to the bus, and
    the address of every transaction that [write_property] makes (one at
    an integral endpoint), is the base address [0xD << 3 = 0x68] plus the
    index; for the index 4 it is [0x6C]. *)
Theorem bus_address int_sz endpoint_type json_crc indeterminate
    IPropertyId T num value v bus :
  endpoint_type IPropertyId = Some T -> supported T -> representable T v ->
  0 <= num < 24 ->
  exists rp wp rq,
    read_property int_sz endpoint_type json_crc indeterminate IPropertyId
    = Some rp
    /\ write_property endpoint_type json_crc indeterminate IPropertyId
       = Some wp
    /\ calls bus (rp num value) = [rq]
    /\ i2c_addr = Z.shiftl 0xD 3
    /\ i2c_addr = 0x68
    /\ slave_addr rq = 0x68 + num
    /\ (forall rq',
          In rq' (calls bus (wp num v)) -> slave_addr rq' = 0x68 + num)
    /\ (is_integral T = true ->
        exists rq',
          calls bus (wp num v) = [rq'] /\ slave_addr rq' = 0x68 + num)
    /\ 0 <= 0x68 + num < 2 ^ 7
    /\ (num = 4 ->
        slave_addr rq = 0x6C
        /\ forall rq',
             In rq' (calls bus (wp num v)) -> slave_addr rq' = 0x6C).
Proof.
  intros HT Hs Hv Hn.
  destruct (read_property_run int_sz endpoint_type json_crc indeterminate
              IPropertyId T HT Hs) as (rp & Hrp & Hrun).
  destruct (write_property_cases endpoint_type json_crc indeterminate
              IPropertyId T HT Hs) as (wp & Hwp & Hw).
  destruct (Hw num v bus Hv) as [Hint Hall].
  destruct (Hrun num value) as [_ Hbus].
  destruct (Hbus bus) as [Hcalls _].
  destruct (slave_addr_value num ltac:(lia)) as (_ & Hsmall & _).
  specialize (Hsmall ltac:(lia)).
  assert (Hw' : forall rq',
            In rq' (calls bus (wp num v)) -> slave_addr rq' = 0x68 + num).
  { intros rq' Hin. destruct (Hall rq' Hin) as [-> _]. exact Hsmall. }
  exists rp, wp, (read_request T IPropertyId json_crc num).
  split; [exact Hrp|]. split; [exact Hwp|]. split; [exact Hcalls|].
  split; [reflexivity|]. split; [reflexivity|].
  split; [exact Hsmall|]. split; [exact Hw'|].
  split.
  { intros HI. destruct (Hint HI) as [Hwcalls _].
    exists (write_request T IPropertyId v json_crc num).
    split; [exact Hwcalls|exact Hsmall]. }
  split; [change (2 ^ 7) with 128; lia|].
  intros ->. split; [exact Hsmall|exact Hw'].
Qed.

Lemma bus_address_witness :
  exists rp wp rq,
    read_property I32 sample_endpoint_type 0x9b40 (fun _ => xff) 5
    = Some rp
    /\ write_property sample_endpoint_type 0x9b40 (fun _ => xff) 5
       = Some wp
    /\ calls (sample_bus true) (rp 4 (Some (VInt 7))) = [rq]
    /\ i2c_addr = Z.shiftl 0xD 3
    /\ i2c_addr = 0x68
    /\ slave_addr rq = 0x68 + 4
    /\ (forall rq',
          In rq' (calls (sample_bus true) (wp 4 (VInt 1000))) -> slave_addr rq' = 0x68 + 4)
    /\ (is_integral uint16_t = true ->
        exists rq',
          calls (sample_bus true) (wp 4 (VInt 1000)) = [rq'] /\ slave_addr rq' = 0x68 + 4)
    /\ 0 <= 0x68 + 4 < 2 ^ 7
    /\ (4 = 4 ->
        slave_addr rq = 0x6C
        /\ forall rq',
             In rq' (calls (sample_bus true) (wp 4 (VInt 1000))) -> slave_addr rq' = 0x6C).
Proof.
  apply (bus_address I32 sample_endpoint_type 0x9b40 (fun _ => xff)
           5 uint16_t 4 (Some (VInt 7)) (VInt 1000) (sample_bus true)).
  - reflexivity.
  - left. reflexivity.
  - split; [reflexivity|]. cbn. lia.
  - lia.
Defined.

(** C9. Called with a null pointer, [read_property] still builds the
    four-byte request and makes the one transaction, asking for
    [byte_width<T>] bytes; it decodes nothing and returns the flag of the
    transaction, [true] when it succeeded. *)
Theorem read_property_null int_sz endpoint_type json_crc indeterminate
    IPropertyId T num :
  endpoint_type IPropertyId = Some T -> supported T ->
  exists rp k,
    read_property int_sz endpoint_type json_crc indeterminate IPropertyId
    = Some rp
    /\ rp num None
       = I2C_transaction
           {| slave_addr := convert uint8_t (i2c_addr + num);
              tx_buffer := Some (le_bytes 2 (convert uint16_t IPropertyId)
                                 ++ le_bytes 2 (convert uint16_t json_crc));
              tx_length := 4;
              rx_buffer := Some (byte_width T);
              rx_length := byte_width T |} k
    /\ (forall r, k r = Return (success r, None))
    /\ (forall bus,
          exists rq,
            calls bus (rp num None) = [rq]
            /\ rx_length rq = byte_width T
            /\ run bus (rp num None) = Some (success (bus rq), None)
            /\ (success (bus rq) = true ->
                run bus (rp num None) = Some (true, None))).
Proof.
  intros HT Hs.
  destruct (read_property_run int_sz endpoint_type json_crc indeterminate
              IPropertyId T HT Hs) as (rp & Hrp & Hrun).
  destruct (Hrun num None) as [(k & Heq & _ & Hnull) Hbus].
  exists rp, k. split; [exact Hrp|]. split; [exact Heq|].
  split; [exact (Hnull eq_refl)|].
  intros bus. destruct (Hbus bus) as [Hcalls _].
  exists (read_request T IPropertyId json_crc num).
  split; [exact Hcalls|]. split; [reflexivity|].
  assert (Hr : run bus (rp num None)
               = Some (success (bus (read_request T IPropertyId json_crc num)),
                       None)).
  { rewrite Heq. cbn [run]. now rewrite (Hnull eq_refl). }
  split; [exact Hr|]. intros Hok. now rewrite Hr, Hok.
Qed.

Lemma read_property_null_witness :
  exists rp k,
    read_property I16 sample_endpoint_type 0x9b40 (fun _ => xff) 6
    = Some rp
    /\ rp 2 None
       = I2C_transaction
           {| slave_addr := convert uint8_t (i2c_addr + 2);
              tx_buffer := Some (le_bytes 2 (convert uint16_t 6)
                                 ++ le_bytes 2 (convert uint16_t 0x9b40));
              tx_length := 4;
              rx_buffer := Some (byte_width TFloat);
              rx_length := byte_width TFloat |} k
    /\ (forall r, k r = Return (success r, None))
    /\ (forall bus,
          exists rq,
            calls bus (rp 2 None) = [rq]
            /\ rx_length rq = byte_width TFloat
            /\ run bus (rp 2 None) = Some (success (bus rq), None)
            /\ (success (bus rq) = true ->
                run bus (rp 2 None) = Some (true, None))).
Proof.
  apply (read_property_null I16 sample_endpoint_type 0x9b40 (fun _ => xff)
           6 TFloat 2).
  - reflexivity.
  - right. reflexivity.
Defined.

(** C10 fails at the index 24: the address is [0x68 + 24 = 0x80], which
    has not wrapped. *)
Lemma address_wrap_fails_at_24 : ~ address_wrap_as_specified.
Proof.
  intros H.
  destruct (read_property_run I32 sample_endpoint_type 0x9b40 (fun _ => xff)
              5 uint16_t eq_refl (or_introl eq_refl))
    as (rp & Hrp & Hrun).
  destruct (Hrun 24 None) as [_ Hbus].
  destruct (Hbus (sample_bus true)) as [Hcalls _].
  destruct (H I32 sample_endpoint_type 0x9b40 (fun _ => xff) 5 uint16_t rp 24
              None (sample_bus true) _ eq_refl Hrp ltac:(lia) Hcalls)
    as [_ Hwrap].
  specialize (Hwrap ltac:(lia)). vm_compute in Hwrap. discriminate Hwrap.
Qed.

(** C10, amended. Neither accessor checks the device index: for every
    8-bit index [num], [read_property] makes its transaction, and so does
    [write_property] at an integral endpoint, and the address of every
    transaction made is [(0x68 + num) mod 2^8]. From the index 8 on that
    is not the address of one of the eight devices; for the indices 24 to
    151 it is [0x68 + num] itself, a value of 128 or more, and only from
    the index 152 on has the sum wrapped modulo 256. *)
Theorem device_index_unchecked int_sz endpoint_type json_crc indeterminate
    IPropertyId T num value v bus :
  endpoint_type IPropertyId = Some T -> supported T -> representable T v ->
  0 <= num < 256 ->
  exists rp wp rq,
    read_property int_sz endpoint_type json_crc indeterminate IPropertyId
    = Some rp
    /\ write_property endpoint_type json_crc indeterminate IPropertyId
       = Some wp
    /\ calls bus (rp num value) = [rq]
    /\ is_Some (run bus (rp num value))
    /\ slave_addr rq = (0x68 + num) mod 2 ^ 8
    /\ (forall rq',
          In rq' (calls bus (wp num v)) ->
          slave_addr rq' = (0x68 + num) mod 2 ^ 8)
    /\ (is_integral T = true ->
        exists rq',
          calls bus (wp num v) = [rq']
          /\ slave_addr rq' = (0x68 + num) mod 2 ^ 8
          /\ is_Some (run bus (wp num v)))
    /\ (8 <= num -> ~ (0x68 <= slave_addr rq <= 0x6F))
    /\ (24 <= num < 152 -> slave_addr rq = 0x68 + num /\ 2 ^ 7 <= slave_addr rq)
    /\ (152 <= num -> slave_addr rq = 0x68 + num - 2 ^ 8).
Proof.
  intros HT Hs Hv Hn.
  destruct (read_property_run int_sz endpoint_type json_crc indeterminate
              IPropertyId T HT Hs) as (rp & Hrp & Hrun).
  destruct (write_property_cases endpoint_type json_crc indeterminate
              IPropertyId T HT Hs) as (wp & Hwp & Hw).
  destruct (Hw num v bus Hv) as [Hint Hall].
  destruct (Hrun num value) as [_ Hbus].
  destruct (Hbus bus) as (Hcalls & final & Hfinal & _).
  destruct (slave_addr_value num Hn) as (Hmod & Hsmall & Hbig).
  exists rp, wp, (read_request T IPropertyId json_crc num).
  split; [exact Hrp|]. split; [exact Hwp|]. split; [exact Hcalls|].
  split; [rewrite Hfinal; eauto|].
  cbn [slave_addr read_request].
  split; [exact Hmod|].
  split.
  { intros rq' Hin. destruct (Hall rq' Hin) as [-> _]. exact Hmod. }
  split.
  { intros HI. destruct (Hint HI) as [Hwcalls Hwres].
    exists (write_request T IPropertyId v json_crc num).
    split; [exact Hwcalls|]. split; [exact Hmod|].
    rewrite Hwres. eauto. }
  change (2 ^ 7) with 128. change (2 ^ 8) with 256.
  split; [|split].
  - intros H8. destruct (Z_lt_le_dec num 152) as [Hlt|Hge].
    + rewrite Hsmall by lia. lia.
    + rewrite Hbig by lia. lia.
  - intros H. rewrite Hsmall by lia. lia.
  - intros H. now apply Hbig.
Qed.

Lemma device_index_unchecked_witness :
  exists rp wp rq,
    read_property I32 sample_endpoint_type 0x9b40 (fun _ => xff) 5
    = Some rp
    /\ write_property sample_endpoint_type 0x9b40 (fun _ => xff) 5
       = Some wp
    /\ calls (sample_bus true) (rp 200 (Some (VInt 7))) = [rq]
    /\ is_Some (run (sample_bus true) (rp 200 (Some (VInt 7))))
    /\ slave_addr rq = (0x68 + 200) mod 2 ^ 8
    /\ (forall rq',
          In rq' (calls (sample_bus true) (wp 200 (VInt 1000))) ->
          slave_addr rq' = (0x68 + 200) mod 2 ^ 8)
    /\ (is_integral uint16_t = true ->
        exists rq',
          calls (sample_bus true) (wp 200 (VInt 1000)) = [rq']
          /\ slave_addr rq' = (0x68 + 200) mod 2 ^ 8
          /\ is_Some (run (sample_bus true) (wp 200 (VInt 1000))))
    /\ (8 <= 200 -> ~ (0x68 <= slave_addr rq <= 0x6F))
    /\ (24 <= 200 < 152 -> slave_addr rq = 0x68 + 200 /\ 2 ^ 7 <= slave_addr rq)
    /\ (152 <= 200 -> slave_addr rq = 0x68 + 200 - 2 ^ 8).
Proof.
  apply (device_index_unchecked I32 sample_endpoint_type 0x9b40
           (fun _ => xff) 5 uint16_t 200 (Some (VInt 7)) (VInt 1000)
           (sample_bus true)).
  - reflexivity.
  - left. reflexivity.
  - split; [reflexivity|]. cbn. lia.
  - lia.
Defined.

(** * Further properties of the codec and of the accessors *)

(** ** Decoding arbitrary bytes *)

Lemma add_disjoint_lor x y k :
  0 <= k -> 0 <= x < 2 ^ k -> x + y * 2 ^ k = Z.lor x (Z.shiftl y k).
Proof.
  intros Hk Hx. rewrite <- Z.shiftl_mul_pow2 by lia.
  assert (Hd : Z.land x (Z.shiftl y k) = 0).
  { apply Z.bits_inj'. intros n Hn.
    rewrite Z.land_spec, Z.bits_0, Z.shiftl_spec by lia.
    destruct (Z.ltb_spec n k).
    - rewrite (Z.testbit_neg_r y) by lia. apply andb_false_r.
    - now rewrite (testbit_above x k n) by lia. }
  rewrite <- (Z.lxor_lor _ _ Hd). now apply Z.add_nocarry_lxor.
Qed.

Lemma pow2_8S n : 2 ^ (8 * Z.of_nat (S n)) = 256 * 2 ^ (8 * Z.of_nat n).
Proof.
  replace (8 * Z.of_nat (S n)) with (8 + 8 * Z.of_nat n) by lia.
  rewrite Z.pow_add_r by lia. reflexivity.
Qed.

Lemma le_combine_range bytes :
  0 <= le_combine bytes < 2 ^ (8 * Z.of_nat (length bytes)).
Proof.
  induction bytes as [|b rest IH]; [cbn; lia|].
  cbn [le_combine length]. rewrite pow2_8S.
  pose proof (Z_of_byte_range b). lia.
Qed.

Lemma le_combine_snoc bytes b :
  le_combine (bytes ++ [b])
  = le_combine bytes + Z_of_byte b * 2 ^ (8 * Z.of_nat (length bytes)).
Proof.
  induction bytes as [|a rest IH].
  - cbn. lia.
  - cbn [app le_combine length]. rewrite IH, pow2_8S. ring.
Qed.

Lemma le_combine_bits bytes :
  forall i b j,
    bytes !! i = Some b -> 0 <= j < 8 ->
    Z.testbit (le_combine bytes) (8 * Z.of_nat i + j)
    = Z.testbit (Z_of_byte b) j.
Proof.
  induction bytes as [|a rest IH]; intros i b j Hb Hj; [discriminate|].
  cbn [le_combine].
  replace (Z_of_byte a + 256 * le_combine rest)
    with (Z_of_byte a + le_combine rest * 2 ^ 8)
    by (change (2 ^ 8) with 256; lia).
  rewrite add_disjoint_lor
    by (pose proof (Z_of_byte_range a); change (2 ^ 8) with 256; lia).
  rewrite Z.lor_spec, Z.shiftl_spec by lia.
  destruct i as [|i'].
  - cbn in Hb. injection Hb as ->.
    rewrite (Z.testbit_neg_r _ (8 * Z.of_nat 0 + j - 8)) by lia.
    rewrite orb_false_r. f_equal; lia.
  - cbn in Hb.
    rewrite (testbit_above (Z_of_byte a) 8)
      by (pose proof (Z_of_byte_range a); change (2 ^ 8) with 256; lia).
    cbn [orb].
    replace (8 * Z.of_nat (S i') + j - 8) with (8 * Z.of_nat i' + j) by lia.
    now apply IH.
Qed.

Lemma read_step_eqm int_sz sg sz i b value :
  eqm (Z.of_nat (bit_width (TInt sg sz)))
      (read_step int_sz (TInt sg sz) i b value)
      (Z.lor value (Z.shiftl (Z_of_byte b) (8 * Z.of_nat i))).
Proof.
  set (W := Z.of_nat (bit_width (TInt sg sz))).
  assert (HW : 0 <= W) by (unfold W; lia).
  unfold read_step. eapply eqm_trans; [apply convert_eqm|]. fold W.
  apply eqm_lor; [assumption|apply eqm_refl|].
  unfold shl. eapply eqm_trans; [apply convert_promote_eqm|]. fold W.
  rewrite shift3. apply eqm_shiftl; [assumption|lia|]. apply convert_eqm.
Qed.

Lemma read_acc_range int_sz sg sz get count :
  forall first value,
    int_range (TInt sg sz) value ->
    int_range (TInt sg sz) (read_acc int_sz (TInt sg sz) count first get value).
Proof.
  induction count as [|n IH]; intros first value Hv; [exact Hv|].
  cbn [read_acc]. apply IH. unfold read_step. apply convert_range.
Qed.

Lemma read_acc_combine int_sz sg sz get count :
  forall first value,
    eqm (Z.of_nat (bit_width (TInt sg sz))) value
        (le_combine (map get (seq 0 first))) ->
    eqm (Z.of_nat (bit_width (TInt sg sz)))
        (read_acc int_sz (TInt sg sz) count first get value)
        (le_combine (map get (seq 0 (first + count)))).
Proof.
  set (W := Z.of_nat (bit_width (TInt sg sz))).
  assert (HW : 0 <= W) by (unfold W; lia).
  induction count as [|n IH]; intros first value Hinv.
  - cbn [read_acc]. now rewrite Nat.add_0_r.
  - cbn [read_acc]. replace (first + S n)%nat with (S first + n)%nat by lia.
    apply IH.
    eapply eqm_trans; [apply read_step_eqm|]. fold W.
    rewrite seq_S, map_app. cbn [map Nat.add].
    rewrite le_combine_snoc, length_map, length_seq.
    rewrite add_disjoint_lor.
    + apply eqm_lor; [assumption|assumption|apply eqm_refl].
    + lia.
    + pose proof (le_combine_range (map get (seq 0 first))) as Hr.
      now rewrite length_map, length_seq in Hr.
Qed.

(** What the loop of [read_le] computes from any bytes. *)
Lemma read_acc_closed int_sz T get :
  is_integral T = true ->
  read_acc int_sz T (byte_width T) 0 get 0
  = convert T (le_combine (map get (seq 0 (byte_width T)))).
Proof.
  intros HT. destruct T as [|sg sz| | |n]; try discriminate.
  - change (byte_width TBool) with 1%nat. cbn [seq map le_combine read_acc].
    unfold read_step, shl. rewrite Z.mul_0_r, Z.add_0_r.
    unfold convert at 3. unfold convert at 3.
    destruct (Z.eqb_spec (Z_of_byte (get 0%nat)) 0);
      destruct int_sz; reflexivity.
  - rewrite byte_width_int.
    apply (int_range_inj sg sz).
    + apply read_acc_range. pose proof (int_bytes_pos sz).
      pose proof (bit_width_int sg sz).
      destruct (pow2_half (Z.of_nat (bit_width (TInt sg sz)))) as [E Hh];
        [lia|].
      unfold int_range. destruct sg; lia.
    + apply convert_range.
    + eapply eqm_trans; [|apply eqm_sym, convert_eqm].
      apply (read_acc_combine int_sz sg sz get (int_bytes sz) 0 0).
      apply eqm_refl.
Qed.

Lemma map_get_cells (cs : list byte) p n :
  (p + n <= length cs)%nat ->
  map (fun i => default x00 (cs !! (p + i)%nat)) (seq 0 n)
  = take n (drop p cs).
Proof.
  intros Hlen. apply list_eq. intros i.
  destruct (decide (i < n)%nat) as [Hi|Hi].
  - rewrite lookup_map_seq by lia. rewrite lookup_take_lt, lookup_drop by lia.
    destruct (lookup_lt_is_Some_2 cs (p + i)%nat) as [b Hb]; [lia|].
    now rewrite Hb.
  - rewrite lookup_ge_None_2 by (rewrite length_map, length_seq; lia).
    now rewrite lookup_take_ge by lia.
Qed.

Lemma length_take_drop (cs : list byte) p n :
  (p + n <= length cs)%nat -> length (take n (drop p cs)) = n.
Proof.
  intros H. rewrite length_take_le; [reflexivity|].
  rewrite length_drop. lia.
Qed.

Lemma read_le_short int_sz T rd buffer m :
  read_le int_sz T = Some rd ->
  (length (cells m) < buffer + byte_width T)%nat ->
  rd buffer m = None.
Proof.
  intros Hrd Hlen. destruct m as [cs acc]. cbn [cells] in Hlen.
  assert (Hs : supported T) by (apply (read_le_supported int_sz); eauto).
  pose proof (byte_width_pos T Hs) as Hbw.
  assert (HR : forall U, byte_width U = byte_width T ->
                 read_le_integral int_sz U buffer (Mem cs acc) = None).
  { intros U HU. unfold read_le_integral. rewrite HU.
    apply load_loop_short; lia. }
  destruct (is_integral T) eqn:HT.
  - unfold read_le in Hrd. rewrite HT in Hrd. injection Hrd as <-.
    unfold bind. now rewrite HR.
  - destruct T as [|sg sz| | |n]; try discriminate.
    rewrite read_le_float in Hrd. injection Hrd as <-.
    unfold bind. now rewrite HR.
Qed.

Lemma float_of_bits_range T z :
  is_floating_point T = true -> float_range T (float_of_bits T z).
Proof.
  intros HT. destruct (float_fields T HT) as (He & Hf & _).
  unfold float_range, float_of_bits. cbn [biased_exp fraction].
  rewrite !Z.land_ones by assumption.
  split; apply Z.mod_pos_bound; apply Z.pow_pos_nonneg; lia.
Qed.

(** Reinterpreting a bit pattern as a floating-point object and back gives
    the same bit pattern. *)
Lemma float_to_of_bits T z :
  is_floating_point T = true ->
  0 <= z < 2 ^ Z.of_nat (bit_width T) ->
  float_to_bits T (float_of_bits T z) = z.
Proof.
  intros HT Hz. destruct (float_fields T HT) as (He & Hf & HW).
  apply Z.bits_inj'. intros i Hi.
  rewrite float_to_bits_testbit
    by (assumption || now apply float_of_bits_range).
  unfold float_of_bits. cbn [sign biased_exp fraction].
  destruct (Z.ltb_spec i (frac_bits T)).
  - rewrite Z.land_spec, Z.testbit_ones_nonneg by lia.
    destruct (Z.ltb_spec i (frac_bits T)); [|lia]. apply andb_true_r.
  - destruct (Z.ltb_spec i (exp_bits T + frac_bits T)).
    + rewrite Z.land_spec, Z.shiftr_spec, Z.testbit_ones_nonneg by lia.
      destruct (Z.ltb_spec (i - frac_bits T) (exp_bits T)); [|lia].
      rewrite andb_true_r. f_equal. lia.
    + destruct (Z.eqb_spec i (exp_bits T + frac_bits T)) as [->|Hne];
        [reflexivity|].
      symmetry. apply (testbit_above z (Z.of_nat (bit_width T))); lia.
Qed.

Lemma le_decode_representable T bytes :
  supported T -> representable T (le_decode T bytes).
Proof.
  intros [HT| ->].
  - unfold le_decode. rewrite HT. split; [assumption|].
    destruct T as [|sg sz| | |n]; try discriminate.
    + unfold convert, int_range. destruct (_ =? 0); lia.
    + apply convert_range.
  - split; [reflexivity|]. now apply float_of_bits_range.
Qed.

(** [read_le] on any bytes. *)
Lemma read_le_closed int_sz T rd buffer m :
  read_le int_sz T = Some rd ->
  (buffer + byte_width T <= length (cells m))%nat ->
  rd buffer m
  = Some (le_decode T (take (byte_width T) (drop buffer (cells m))),
          Mem (cells m) (accesses m ++ seq buffer (byte_width T))).
Proof.
  intros Hrd Hlen.
  assert (Hget : forall U, byte_width U = byte_width T ->
            read_le_integral int_sz U buffer m
            = Some (read_acc int_sz U (byte_width U) 0
                      (fun i => default x00 (cells m !! (buffer + i)%nat)) 0,
                    Mem (cells m) (accesses m ++ seq buffer (byte_width U)))).
  { intros U HU. apply read_le_integral_spec. intros i Hi.
    destruct (lookup_lt_is_Some_2 (cells m) (buffer + i)%nat) as [b Hb];
      [lia|].
    now rewrite Hb. }
  destruct (is_integral T) eqn:HT.
  - unfold read_le in Hrd. rewrite HT in Hrd. injection Hrd as <-.
    unfold bind. rewrite Hget by reflexivity. unfold ret.
    rewrite read_acc_closed by assumption.
    rewrite map_get_cells by lia. unfold le_decode. now rewrite HT.
  - destruct T as [|sg sz| | |n]; try discriminate.
    rewrite read_le_float in Hrd. injection Hrd as <-.
    unfold bind. rewrite (Hget uint32_t) by reflexivity. unfold ret.
    rewrite read_acc_closed by reflexivity.
    change (byte_width uint32_t) with (byte_width TFloat).
    rewrite map_get_cells by lia.
    rewrite convert_id; [reflexivity|].
    pose proof (le_combine_range
                  (take (byte_width TFloat) (drop buffer (cells m)))) as Hr.
    rewrite length_take_drop in Hr by lia. exact Hr.
Qed.

(** X1. On any bytes, [read_le<T>] returns the number they denote least
    significant byte first, converted to [T] (for an unsigned [T] that
    number itself), and for a floating-point [T] the object with that bit
    pattern; it reads nothing but its [byte_width<T>] cells. *)
Theorem read_le_closed_form int_sz T buffer m :
  supported T ->
  (buffer + byte_width T <= length (cells m))%nat ->
  exists rd,
    read_le int_sz T = Some rd
    /\ rd buffer m
       = Some (le_decode T (take (byte_width T) (drop buffer (cells m))),
               Mem (cells m) (accesses m ++ seq buffer (byte_width T)))
    /\ (forall sz, T = TInt false sz ->
          le_decode T (take (byte_width T) (drop buffer (cells m)))
          = VInt (le_combine (take (byte_width T) (drop buffer (cells m))))).
Proof.
  intros HT Hlen.
  destruct (proj2 (read_le_supported int_sz T) HT) as [rd Hrd].
  exists rd. split; [exact Hrd|].
  split; [exact (read_le_closed int_sz T rd buffer m Hrd Hlen)|].
  intros sz ->. unfold le_decode. cbn [is_integral]. f_equal.
  apply convert_id.
  pose proof (le_combine_range
                (take (byte_width (TInt false sz)) (drop buffer (cells m))))
    as Hr.
  rewrite length_take_drop in Hr by lia.
  rewrite byte_width_int in Hr. unfold int_range. cbv zeta.
  rewrite bit_width_int. rewrite byte_width_int. exact Hr.
Qed.

Lemma read_le_closed_form_witness :
  exists rd,
    read_le I16 int16_t = Some rd
    /\ rd 1%nat (Mem [x00; xfe; xff; x07] [])
       = Some (le_decode int16_t
                 (take (byte_width int16_t) (drop 1 [x00; xfe; xff; x07])),
               Mem [x00; xfe; xff; x07] ([] ++ seq 1 (byte_width int16_t)))
    /\ (forall sz, int16_t = TInt false sz ->
          le_decode int16_t
            (take (byte_width int16_t) (drop 1 [x00; xfe; xff; x07]))
          = VInt (le_combine
                    (take (byte_width int16_t)
                       (drop 1 [x00; xfe; xff; x07])))).
Proof.
  apply (read_le_closed_form I16 int16_t 1 (Mem [x00; xfe; xff; x07] [])).
  - left. reflexivity.
  - cbn. lia.
Defined.

(** X2. Whatever bytes the buffer holds, a value [read_le<T>] returns is one
    an object of type [T] can hold. *)
Theorem read_le_representable int_sz T rd buffer m v m' :
  read_le int_sz T = Some rd ->
  rd buffer m = Some (v, m') ->
  representable T v.
Proof.
  intros Hrd Hv.
  assert (Hs : supported T) by (apply (read_le_supported int_sz); eauto).
  destruct (decide (buffer + byte_width T <= length (cells m))%nat)
    as [Hlen|Hlen].
  - rewrite (read_le_closed int_sz T rd buffer m Hrd Hlen) in Hv.
    injection Hv as <- _. now apply le_decode_representable.
  - rewrite (read_le_short int_sz T rd buffer m Hrd) in Hv by lia.
    discriminate Hv.
Qed.

Lemma read_le_representable_witness :
  representable TFloat (VFloat (Ieee true 255 0x400001)).
Proof.
  apply (read_le_representable I32 TFloat
           (fun buffer =>
              bind (read_le_integral I32 uint32_t buffer)
                (fun value => ret (VFloat (float_of_bits TFloat value))))
           0 (Mem [x01; x00; xc0; xff] []) _
           (Mem [x01; x00; xc0; xff] [0; 1; 2; 3]%nat)).
  - reflexivity.
  - reflexivity.
Defined.

(** X3. The value [read_le<T>] returns does not depend on the size of the
    platform's [int]: the integral promotions inside the loop change
    nothing. *)
Theorem read_le_int_size_independent int_sz int_sz' T rd rd' buffer m :
  read_le int_sz T = Some rd ->
  read_le int_sz' T = Some rd' ->
  rd buffer m = rd' buffer m.
Proof.
  intros Hrd Hrd'.
  destruct (decide (buffer + byte_width T <= length (cells m))%nat)
    as [Hlen|Hlen].
  - rewrite (read_le_closed int_sz T rd buffer m Hrd Hlen).
    now rewrite (read_le_closed int_sz' T rd' buffer m Hrd' Hlen).
  - rewrite (read_le_short int_sz T rd buffer m Hrd) by lia.
    now rewrite (read_le_short int_sz' T rd' buffer m Hrd') by lia.
Qed.

Lemma read_le_int_size_independent_witness :
  (fun buffer =>
     bind (read_le_integral I16 int32_t buffer) (fun value => ret (VInt value)))
    0%nat (Mem [xff; xff; xff; x80] [])
  = (fun buffer =>
       bind (read_le_integral I64 int32_t buffer)
         (fun value => ret (VInt value)))
      0%nat (Mem [xff; xff; xff; x80] []).
Proof.
  apply (read_le_int_size_independent I16 I64 int32_t).
  - reflexivity.
  - reflexivity.
Defined.

(** ** Encoding what was decoded *)

Lemma le_byte_eqm W a b i :
  eqm W a b -> 8 * (Z.of_nat i + 1) <= W -> le_byte a i = le_byte b i.
Proof.
  intros H Hi. unfold le_byte. f_equal. rewrite shift3.
  apply Z.bits_inj'. intros n Hn.
  rewrite !Z.land_spec, !Z.shiftr_spec by lia.
  change 255 with (Z.ones 8). rewrite Z.testbit_ones_nonneg by lia.
  destruct (Z.ltb_spec n 8); [|now rewrite !andb_false_r].
  rewrite !andb_true_r.
  apply (proj1 (eqm_testbit W a b ltac:(lia)) H). lia.
Qed.

Lemma le_byte_combine bytes i b :
  bytes !! i = Some b -> le_byte (le_combine bytes) i = b.
Proof.
  intros Hb. rewrite <- (uint8_of_byte b). unfold le_byte. f_equal.
  rewrite shift3. apply Z.bits_inj'. intros n Hn.
  rewrite Z.land_spec, Z.shiftr_spec by lia.
  change 255 with (Z.ones 8). rewrite Z.testbit_ones_nonneg by lia.
  destruct (Z.ltb_spec n 8).
  - rewrite andb_true_r.
    rewrite (Z.add_comm n). now apply le_combine_bits.
  - rewrite andb_false_r. symmetry.
    apply (testbit_above _ 8); [|lia].
    pose proof (Z_of_byte_range b). change (2 ^ 8) with 256. lia.
Qed.

Lemma le_bytes_combine bytes r W :
  eqm W r (le_combine bytes) ->
  8 * Z.of_nat (length bytes) <= W ->
  le_bytes (length bytes) r = bytes.
Proof.
  intros H HW. apply list_eq. intros i. unfold le_bytes.
  destruct (decide (i < length bytes)%nat) as [Hi|Hi].
  - rewrite lookup_map_seq by lia.
    destruct (lookup_lt_is_Some_2 bytes i Hi) as [b Hb].
    rewrite Hb. f_equal.
    rewrite (le_byte_eqm W r (le_combine bytes)) by (assumption || lia).
    now apply le_byte_combine.
  - rewrite lookup_ge_None_2 by (rewrite length_map, length_seq; lia).
    symmetry. apply lookup_ge_None_2. lia.
Qed.

Lemma convert_eqm_eq sg sz a b :
  eqm (Z.of_nat (bit_width (TInt sg sz))) a b ->
  convert (TInt sg sz) a = convert (TInt sg sz) b.
Proof.
  intros H. apply (int_range_inj sg sz); try apply convert_range.
  eapply eqm_trans; [apply convert_eqm|].
  eapply eqm_trans; [exact H|]. apply eqm_sym, convert_eqm.
Qed.

(** The bytes of the object that a byte sequence denotes are that
    sequence, for every type but [bool]. *)
Lemma le_bytes_decode T bytes :
  supported T -> T <> TBool -> length bytes = byte_width T ->
  le_bytes (byte_width T) (scalar_bits T (le_decode T bytes)) = bytes.
Proof.
  intros [HT| ->] Hb Hlen.
  - destruct T as [|sg sz| | |n]; try discriminate; [congruence|].
    unfold le_decode. cbn [is_integral scalar_bits]. rewrite <- Hlen.
    apply (le_bytes_combine _ _ (Z.of_nat (bit_width (TInt sg sz)))).
    + apply convert_eqm.
    + rewrite Hlen, byte_width_int, bit_width_int. lia.
  - unfold le_decode. cbn [is_integral scalar_bits].
    rewrite float_to_of_bits; [|reflexivity|].
    + rewrite <- Hlen. apply (le_bytes_combine _ _ 32); [apply eqm_refl|].
      rewrite Hlen. cbn. lia.
    + pose proof (le_combine_range bytes) as Hr. rewrite Hlen in Hr.
      exact Hr.
Qed.

(** X4. For every integral type but [bool], [write_le<T>] of what
    [read_le<T>] returned stores the bytes that were read: the buffer is
    as it was, whatever it held. *)
Theorem write_le_read_le_roundtrip int_sz T buffer m :
  is_integral T = true -> T <> TBool ->
  (buffer + byte_width T <= length (cells m))%nat ->
  exists rd wr v m1 m2,
    read_le int_sz T = Some rd /\ write_le T = Some wr
    /\ rd buffer m = Some (v, m1)
    /\ wr buffer v m1 = Some (tt, m2)
    /\ cells m2 = cells m.
Proof.
  intros HI Hb Hlen.
  assert (HT : supported T) by now left.
  destruct (proj2 (read_le_supported int_sz T) HT) as [rd Hrd].
  destruct (proj2 (write_le_supported T) HT) as [wr Hwr].
  exists rd, wr. eexists. eexists. eexists.
  split; [exact Hrd|]. split; [exact Hwr|].
  split; [exact (read_le_closed int_sz T rd buffer m Hrd Hlen)|].
  split.
  - apply (write_le_spec T wr); [exact Hwr|exact HI| |exact Hlen].
    now apply le_decode_representable.
  - cbn [cells].
    rewrite le_bytes_decode
      by (assumption || (apply length_take_drop; lia)).
    rewrite <- (drop_drop (cells m) (byte_width T) buffer).
    now rewrite !take_drop.
Qed.

Lemma write_le_read_le_roundtrip_witness :
  exists rd wr v m1 m2,
    read_le I32 int32_t = Some rd /\ write_le int32_t = Some wr
    /\ rd 1%nat (Mem [x55; x01; x00; xc0; xff; xaa] []) = Some (v, m1)
    /\ wr 1%nat v m1 = Some (tt, m2)
    /\ cells m2 = cells (Mem [x55; x01; x00; xc0; xff; xaa] []).
Proof.
  apply (write_le_read_le_roundtrip I32 int32_t 1
           (Mem [x55; x01; x00; xc0; xff; xaa] [])).
  - reflexivity.
  - discriminate.
  - cbn. lia.
Defined.

(** X5. [read_le<bool>] returns [true] for every non-zero byte, and
    [write_le<bool>] of the result stores [01] for it: reading and writing
    back turns every non-zero byte into [01] and leaves [00] as it is. *)
Theorem bool_byte_normalised int_sz buffer m b :
  cells m !! buffer = Some b ->
  exists rd wr v m1 m2,
    read_le int_sz TBool = Some rd /\ write_le TBool = Some wr
    /\ rd buffer m = Some (v, m1)
    /\ v = VInt (if Z_of_byte b =? 0 then 0 else 1)
    /\ wr buffer v m1 = Some (tt, m2)
    /\ cells m2
       = <[buffer := if Z_of_byte b =? 0 then x00 else x01]> (cells m).
Proof.
  intros Hb. pose proof (lookup_lt_Some _ _ _ Hb) as Hlt.
  assert (Hlen : (buffer + byte_width TBool <= length (cells m))%nat)
    by (change (byte_width TBool) with 1%nat; lia).
  assert (Hs : supported TBool) by now left.
  destruct (proj2 (read_le_supported int_sz TBool) Hs) as [rd Hrd].
  destruct (proj2 (write_le_supported TBool) Hs) as [wr Hwr].
  assert (Hv : le_decode TBool (take (byte_width TBool)
                                  (drop buffer (cells m)))
               = VInt (if Z_of_byte b =? 0 then 0 else 1)).
  { rewrite (drop_S _ _ _ Hb). change (byte_width TBool) with 1%nat.
    cbn [take]. unfold le_decode. cbn [is_integral le_combine convert].
    now rewrite Z.mul_0_r, Z.add_0_r. }
  exists rd, wr. eexists. eexists. eexists.
  split; [exact Hrd|]. split; [exact Hwr|].
  split; [exact (read_le_closed int_sz TBool rd buffer m Hrd Hlen)|].
  split; [exact Hv|].
  split.
  - apply (write_le_spec TBool wr); [exact Hwr|reflexivity| |exact Hlen].
    now apply le_decode_representable.
  - cbn [cells]. rewrite Hv. cbn [scalar_bits].
    rewrite insert_take_drop by lia.
    change (byte_width TBool) with 1%nat.
    replace (buffer + 1)%nat with (S buffer) by lia.
    f_equal. destruct (Z_of_byte b =? 0); reflexivity.
Qed.

Lemma bool_byte_normalised_witness :
  exists rd wr v m1 m2,
    read_le I16 TBool = Some rd /\ write_le TBool = Some wr
    /\ rd 1%nat (Mem [x00; x80; x00] []) = Some (v, m1)
    /\ v = VInt (if Z_of_byte x80 =? 0 then 0 else 1)
    /\ wr 1%nat v m1 = Some (tt, m2)
    /\ cells m2
       = <[1%nat := if Z_of_byte x80 =? 0 then x00 else x01]>
           (cells (Mem [x00; x80; x00] [])).
Proof.
  apply (bool_byte_normalised I16 1 (Mem [x00; x80; x00] []) x80).
  reflexivity.
Defined.

(** X6. [write_le<T>] for an integral [T] is injective: two values of
    type [T] that leave the same bytes in the buffer are the same
    value. *)
Theorem write_le_injective T wr v1 v2 buffer m :
  write_le T = Some wr -> is_integral T = true ->
  representable T v1 -> representable T v2 ->
  (buffer + byte_width T <= length (cells m))%nat ->
  wr buffer v1 m = wr buffer v2 m ->
  v1 = v2.
Proof.
  intros Hwr HI H1 H2 Hlen Heq.
  assert (Hs : supported T) by now left.
  destruct (proj2 (read_le_supported I32 T) Hs) as [rd Hrd].
  rewrite (write_le_spec T wr v1 buffer m Hwr HI H1 Hlen) in Heq.
  rewrite (write_le_spec T wr v2 buffer m Hwr HI H2 Hlen) in Heq.
  injection Heq as Hcells.
  set (c1 := take buffer (cells m)
             ++ le_bytes (byte_width T) (scalar_bits T v1)
             ++ drop (buffer + byte_width T) (cells m)) in *.
  set (c2 := take buffer (cells m)
             ++ le_bytes (byte_width T) (scalar_bits T v2)
             ++ drop (buffer + byte_width T) (cells m)) in *.
  assert (R1 : rd buffer (Mem c1 [])
               = Some (v1, Mem c1 ([] ++ seq buffer (byte_width T)))).
  { apply (read_le_spec I32 T rd v1 buffer (Mem c1 []) Hrd H1).
    intros i Hi. now apply lookup_le_bytes_splice. }
  assert (R2 : rd buffer (Mem c2 [])
               = Some (v2, Mem c2 ([] ++ seq buffer (byte_width T)))).
  { apply (read_le_spec I32 T rd v2 buffer (Mem c2 []) Hrd H2).
    intros i Hi. now apply lookup_le_bytes_splice. }
  rewrite Hcells, R2 in R1. now injection R1.
Qed.

Lemma write_le_injective_witness : VInt (-1) = VInt (-1).
Proof.
  apply (write_le_injective int16_t
           (fun buffer value =>
              match value with
              | VInt z => write_le_integral int16_t buffer z
              | VFloat _ => undefined
              end)
           (VInt (-1)) (VInt (-1)) 0 (Mem [x00; x00] [])).
  - reflexivity.
  - reflexivity.
  - split; [reflexivity|]. cbn. lia.
  - split; [reflexivity|]. cbn. lia.
  - cbn. lia.
  - reflexivity.
Defined.

(** X7. Signedness only changes how the bytes are read: on the same bytes
    [read_le<intN_t>] returns the two's complement reading of what
    [read_le<uintN_t>] returns, and [write_le<intN_t>(v)] stores the bytes
    [write_le<uintN_t>] stores for [v] reduced modulo [2^N]. *)
Theorem signedness_only_interprets int_sz sz buffer m v :
  (buffer + int_bytes sz <= length (cells m))%nat ->
  (exists rs ru s u m',
      read_le int_sz (TInt true sz) = Some rs
      /\ read_le int_sz (TInt false sz) = Some ru
      /\ rs buffer m = Some (VInt s, m')
      /\ ru buffer m = Some (VInt u, m')
      /\ s = convert (TInt true sz) u
      /\ u = convert (TInt false sz) s)
  /\ (exists ws wu,
         write_le (TInt true sz) = Some ws
         /\ write_le (TInt false sz) = Some wu
         /\ ws buffer (VInt v) m
            = wu buffer (VInt (convert (TInt false sz) v)) m).
Proof.
  intros Hlen. split.
  - assert (HS : supported (TInt true sz)) by now left.
    assert (HU : supported (TInt false sz)) by now left.
    destruct (proj2 (read_le_supported int_sz _) HS) as [rs Hrs].
    destruct (proj2 (read_le_supported int_sz _) HU) as [ru Hru].
    exists rs, ru. eexists. eexists. eexists.
    split; [exact Hrs|]. split; [exact Hru|].
    split.
    { rewrite (read_le_closed int_sz _ rs buffer m Hrs)
        by (rewrite byte_width_int; exact Hlen).
      unfold le_decode. cbn [is_integral]. reflexivity. }
    split.
    { rewrite (read_le_closed int_sz _ ru buffer m Hru)
        by (rewrite byte_width_int; exact Hlen).
      unfold le_decode. cbn [is_integral].
      rewrite !byte_width_int. reflexivity. }
    rewrite !byte_width_int. split.
    + apply convert_eqm_eq. apply eqm_sym.
      exact (convert_eqm false sz _).
    + apply convert_eqm_eq. apply eqm_sym.
      exact (convert_eqm true sz _).
  - eexists. eexists. split; [reflexivity|]. split; [reflexivity|].
    cbn beta iota.
    rewrite !write_le_integral_spec by (rewrite byte_width_int; exact Hlen).
    rewrite !byte_width_int. do 4 f_equal.
    unfold le_bytes. f_equal. apply map_ext_in. intros i Hi. apply in_seq in Hi.
    apply (le_byte_eqm (Z.of_nat (bit_width (TInt false sz)))).
    + apply eqm_sym, convert_eqm.
    + rewrite bit_width_int. lia.
Qed.

Lemma signedness_only_interprets_witness :
  (exists rs ru s u m',
      read_le I32 (TInt true I16) = Some rs
      /\ read_le I32 (TInt false I16) = Some ru
      /\ rs 0%nat (Mem [xfe; xff] []) = Some (VInt s, m')
      /\ ru 0%nat (Mem [xfe; xff] []) = Some (VInt u, m')
      /\ s = convert (TInt true I16) u
      /\ u = convert (TInt false I16) s)
  /\ (exists ws wu,
         write_le (TInt true I16) = Some ws
         /\ write_le (TInt false I16) = Some wu
         /\ ws 0%nat (VInt (-2)) (Mem [xfe; xff] [])
            = wu 0%nat (VInt (convert (TInt false I16) (-2)))
                (Mem [xfe; xff] [])).
Proof.
  apply (signedness_only_interprets I32 I16 0 (Mem [xfe; xff] []) (-2)).
  cbn. lia.
Defined.

(** ** Fields of a buffer do not disturb each other *)

Lemma lookup_splice_outside (cs B : list byte) p n j :
  length B = n -> (p + n <= length cs)%nat ->
  (j < p \/ p + n <= j)%nat ->
  (take p cs ++ B ++ drop (p + n) cs) !! j = cs !! j.
Proof.
  intros HB Hlen [Hj|Hj].
  - rewrite lookup_app_l by (rewrite length_take_le; lia).
    now apply lookup_take_lt.
  - assert (Ht : length (take p cs) = p) by (apply length_take_le; lia).
    rewrite lookup_app_r by lia. rewrite lookup_app_r by lia.
    rewrite lookup_drop, Ht, HB. f_equal. lia.
Qed.

(** X8. A [write_le<T>] of an integral [T] next to the cells of a [U] does
    not change what [read_le<U>] returns from them. *)
Theorem write_le_preserves_disjoint_read int_sz T U wr rd v p q m :
  write_le T = Some wr -> is_integral T = true ->
  read_le int_sz U = Some rd ->
  representable T v ->
  (p + byte_width T <= length (cells m))%nat ->
  (q + byte_width U <= length (cells m))%nat ->
  (q + byte_width U <= p \/ p + byte_width T <= q)%nat ->
  exists m1 u ma mb,
    wr p v m = Some (tt, m1)
    /\ rd q m = Some (u, ma)
    /\ rd q m1 = Some (u, mb).
Proof.
  intros Hwr HI Hrd Hv Hp Hq Hdis.
  eexists. eexists. eexists. eexists.
  split; [exact (write_le_spec T wr v p m Hwr HI Hv Hp)|].
  split; [exact (read_le_closed int_sz U rd q m Hrd Hq)|].
  rewrite (read_le_closed int_sz U rd q _ Hrd)
    by (cbn [cells]; rewrite length_le_bytes_splice; lia).
  cbn [cells accesses]. do 3 f_equal.
  apply list_eq. intros i.
  destruct (decide (i < byte_width U)%nat) as [Hi|Hi].
  - rewrite !lookup_take_lt, !lookup_drop by lia.
    apply lookup_splice_outside; [apply length_le_bytes|lia|lia].
  - now rewrite !lookup_take_ge by lia.
Qed.

Lemma write_le_preserves_disjoint_read_witness :
  exists m1 u ma mb,
    (fun buffer value =>
       match value with
       | VInt z => write_le_integral uint16_t buffer z
       | VFloat _ => undefined
       end) 2%nat (VInt 1000) (Mem [x05; x00; x00; x00; x40; x9b] [])
    = Some (tt, m1)
    /\ (fun buffer =>
          bind (read_le_integral I32 uint16_t buffer)
            (fun value => ret (VInt value)))
         4%nat (Mem [x05; x00; x00; x00; x40; x9b] [])
       = Some (u, ma)
    /\ (fun buffer =>
          bind (read_le_integral I32 uint16_t buffer)
            (fun value => ret (VInt value))) 4%nat m1
       = Some (u, mb).
Proof.
  apply (write_le_preserves_disjoint_read I32 uint16_t uint16_t).
  - reflexivity.
  - reflexivity.
  - reflexivity.
  - split; [reflexivity|]. cbn. lia.
  - cbn. lia.
  - cbn. lia.
  - right. cbn. lia.
Defined.

(** ** The accessors, end to end *)

Lemma lookup_write_frame_payload T IPropertyId value json_crc i :
  (i < byte_width T)%nat ->
  write_frame T IPropertyId value json_crc !! (2 + i)%nat
  = Some (le_byte (scalar_bits T value) i).
Proof.
  intros Hi. unfold write_frame.
  rewrite lookup_app_r by (rewrite length_le_bytes; lia).
  rewrite length_le_bytes. replace (2 + i - 2)%nat with i by lia.
  rewrite lookup_app_l by (rewrite length_le_bytes; lia).
  unfold le_bytes. now apply lookup_map_seq.
Qed.

(** X9. An accessor exists exactly for the property ids whose catalog type
    the codec is defined for: for an id the catalog does not know, or one
    of type [double], neither [read_property] nor [write_property]
    compiles. *)
Theorem accessors_defined_iff int_sz endpoint_type json_crc indeterminate
    IPropertyId :
  (is_Some (read_property int_sz endpoint_type json_crc indeterminate
              IPropertyId)
   <-> exists T, endpoint_type IPropertyId = Some T /\ supported T)
  /\ (is_Some (write_property endpoint_type json_crc indeterminate
                 IPropertyId)
      <-> exists T, endpoint_type IPropertyId = Some T /\ supported T).
Proof.
  split; split.
  - intros [rp Hrp]. unfold read_property in Hrp.
    destruct (endpoint_type IPropertyId) as [T|]; [|discriminate].
    exists T. split; [reflexivity|].
    apply (read_le_supported int_sz).
    destruct (write_le uint16_t); [|discriminate].
    destruct (read_le int_sz T); [eauto|discriminate].
  - intros (T & HT & Hs).
    destruct (read_property_run int_sz endpoint_type json_crc indeterminate
                IPropertyId T HT Hs) as (rp & Hrp & _).
    eauto.
  - intros [wp Hwp]. unfold write_property in Hwp.
    destruct (endpoint_type IPropertyId) as [T|]; [|discriminate].
    exists T. split; [reflexivity|].
    apply write_le_supported.
    destruct (write_le uint16_t); [|discriminate].
    destruct (write_le T); [eauto|discriminate].
  - intros (T & HT & Hs).
    destruct (write_property_cases endpoint_type json_crc indeterminate
                IPropertyId T HT Hs) as (wp & Hwp & _).
    eauto.
Qed.

(** X10. When its transaction succeeds and its pointer is not null,
    [read_property] stores the object that the [byte_width<T>] bytes
    received denote; that is always a value of type [T], and neither what
    the pointer held before nor what the stack held matters. *)
Theorem read_property_decodes int_sz endpoint_type json_crc indeterminate
    IPropertyId T num old bus :
  endpoint_type IPropertyId = Some T -> supported T ->
  exists rp rq,
    read_property int_sz endpoint_type json_crc indeterminate IPropertyId
    = Some rp
    /\ calls bus (rp num (Some old)) = [rq]
    /\ representable T
         (le_decode T (map (rx_bytes (bus rq)) (seq 0 (byte_width T))))
    /\ (success (bus rq) = true ->
        run bus (rp num (Some old))
        = Some (true,
                Some (le_decode T
                        (map (rx_bytes (bus rq))
                           (seq 0 (byte_width T)))))).
Proof.
  intros HT Hs.
  destruct (proj2 (read_le_supported int_sz T) Hs) as [rd Hrd].
  destruct (read_property_unfold int_sz endpoint_type json_crc indeterminate
              IPropertyId T rd HT Hrd) as (rp & Hrp & Heq).
  exists rp, (read_request T IPropertyId json_crc num).
  split; [exact Hrp|].
  rewrite Heq. fold (read_request T IPropertyId json_crc num).
  cbn [calls run].
  set (rq := read_request T IPropertyId json_crc num).
  assert (Hread : rd 0%nat (received (bus rq) (byte_width T))
                  = Some (le_decode T
                            (map (rx_bytes (bus rq)) (seq 0 (byte_width T))),
                          Mem (cells (received (bus rq) (byte_width T)))
                            ([] ++ seq 0 (byte_width T)))).
  { rewrite (read_le_closed int_sz T rd 0 _ Hrd)
      by (rewrite received_length; lia).
    unfold received. cbn [cells accesses]. rewrite drop_0.
    rewrite take_ge by (rewrite length_map, length_seq; lia).
    reflexivity. }
  split.
  - destruct (success (bus rq)); cbn [negb]; [rewrite Hread|]; reflexivity.
  - split; [now apply le_decode_representable|].
    intros Hok. rewrite Hok. cbn [negb]. now rewrite Hread.
Qed.

Lemma read_property_decodes_witness :
  exists rp rq,
    read_property I32 sample_endpoint_type 0x9b40 (fun _ => xff) 5 = Some rp
    /\ calls (sample_bus true) (rp 0 (Some (VInt 7))) = [rq]
    /\ representable uint16_t
         (le_decode uint16_t
            (map (rx_bytes (sample_bus true rq))
               (seq 0 (byte_width uint16_t))))
    /\ (success (sample_bus true rq) = true ->
        run (sample_bus true) (rp 0 (Some (VInt 7)))
        = Some (true,
                Some (le_decode uint16_t
                        (map (rx_bytes (sample_bus true rq))
                           (seq 0 (byte_width uint16_t)))))).
Proof.
  apply (read_property_decodes I32 sample_endpoint_type 0x9b40
           (fun _ => xff) 5 uint16_t 0 (VInt 7) (sample_bus true)).
  - reflexivity.
  - left. reflexivity.
Defined.

(** X11. At an integral endpoint, what [write_property] sends is what
    [read_property] understands: if a successful read transaction returns
    the payload bytes of the request that [write_property] makes for a
    value, [read_property] stores that value. *)
Theorem write_then_read_property int_sz endpoint_type json_crc indeterminate
    IPropertyId T v num num' old bus :
  endpoint_type IPropertyId = Some T -> is_integral T = true ->
  representable T v ->
  exists wp rp rqw kw frame rqr,
    write_property endpoint_type json_crc indeterminate IPropertyId = Some wp
    /\ read_property int_sz endpoint_type json_crc indeterminate IPropertyId
       = Some rp
    /\ wp num v = I2C_transaction rqw kw
    /\ tx_buffer rqw = Some frame
    /\ calls bus (rp num' (Some old)) = [rqr]
    /\ (success (bus rqr) = true ->
        (forall i, (i < byte_width T)%nat ->
                   frame !! (2 + i)%nat = Some (rx_bytes (bus rqr) i)) ->
        run bus (rp num' (Some old)) = Some (true, Some v)).
Proof.
  intros HT HI Hv.
  assert (Hs : supported T) by now left.
  destruct (proj2 (read_le_supported int_sz T) Hs) as [rd Hrd].
  destruct (read_property_unfold int_sz endpoint_type json_crc indeterminate
              IPropertyId T rd HT Hrd) as (rp & Hrp & Heq).
  destruct (write_property_run endpoint_type json_crc indeterminate
              IPropertyId T HT HI) as (wp & Hwp & Hwrun).
  destruct (Hwrun num v Hv) as [Hweq _].
  exists wp, rp. eexists. eexists.
  exists (write_frame T IPropertyId v json_crc),
         (read_request T IPropertyId json_crc num').
  split; [exact Hwp|]. split; [exact Hrp|]. split; [exact Hweq|].
  split; [reflexivity|].
  rewrite Heq. fold (read_request T IPropertyId json_crc num').
  cbn [calls run].
  set (rq := read_request T IPropertyId json_crc num').
  split.
  - destruct (success (bus rq)); cbn [negb]; [|reflexivity].
    destruct (read_le_total int_sz T rd 0 (received (bus rq) (byte_width T))
                Hrd) as [u Hu]; [rewrite received_length; lia|].
    now rewrite Hu.
  - intros Hok Hecho. rewrite Hok. cbn [negb].
    rewrite (read_le_spec int_sz T rd v 0 _ Hrd Hv); [reflexivity|].
    intros i Hi. unfold received. cbn [cells Nat.add].
    rewrite lookup_map_seq by lia. f_equal.
    specialize (Hecho i Hi).
    rewrite lookup_write_frame_payload in Hecho by lia.
    now injection Hecho.
Qed.

Lemma write_then_read_property_witness :
  exists wp rp rqw kw frame rqr,
    write_property sample_endpoint_type 0x9b40 (fun _ => xff) 5 = Some wp
    /\ read_property I32 sample_endpoint_type 0x9b40 (fun _ => xff) 5
       = Some rp
    /\ wp 0 (VInt 0x1234) = I2C_transaction rqw kw
    /\ tx_buffer rqw = Some frame
    /\ calls (sample_bus true) (rp 1 (Some (VInt 7))) = [rqr]
    /\ (success (sample_bus true rqr) = true ->
        (forall i, (i < byte_width uint16_t)%nat ->
                   frame !! (2 + i)%nat
                   = Some (rx_bytes (sample_bus true rqr) i)) ->
        run (sample_bus true) (rp 1 (Some (VInt 7)))
        = Some (true, Some (VInt 0x1234))).
Proof.
  apply (write_then_read_property I32 sample_endpoint_type 0x9b40
           (fun _ => xff) 5 uint16_t (VInt 0x1234) 0 1 (VInt 7)
           (sample_bus true)).
  - reflexivity.
  - reflexivity.
  - split; [reflexivity|]. cbn. lia.
Defined.

(** X12. Only the low sixteen bits of a property id reach the bus: for two
    ids of the same type that agree modulo [2^16], [read_property] and
    [write_property] behave the same. *)
Theorem property_id_truncated int_sz endpoint_type json_crc indeterminate
    IPropertyId IPropertyId' T num value v :
  endpoint_type IPropertyId = Some T ->
  endpoint_type IPropertyId' = Some T ->
  supported T -> representable T v ->
  IPropertyId mod 2 ^ 16 = IPropertyId' mod 2 ^ 16 ->
  exists rp rp' wp wp',
    read_property int_sz endpoint_type json_crc indeterminate IPropertyId
    = Some rp
    /\ read_property int_sz endpoint_type json_crc indeterminate IPropertyId'
       = Some rp'
    /\ write_property endpoint_type json_crc indeterminate IPropertyId
       = Some wp
    /\ write_property endpoint_type json_crc indeterminate IPropertyId'
       = Some wp'
    /\ rp num value = rp' num value
    /\ wp num v = wp' num v.
Proof.
  intros HT HT' Hs Hv Hmod.
  assert (Hc : convert uint16_t IPropertyId = convert uint16_t IPropertyId')
    by exact Hmod.
  destruct (proj2 (read_le_supported int_sz T) Hs) as [rd Hrd].
  destruct (proj2 (write_le_supported T) Hs) as [wr Hwr].
  destruct (proj2 (write_le_supported uint16_t) (or_introl eq_refl))
    as [w Hw].
  destruct (read_property_unfold int_sz endpoint_type json_crc indeterminate
              IPropertyId T rd HT Hrd) as (rp & Hrp & Heq).
  destruct (read_property_unfold int_sz endpoint_type json_crc indeterminate
              IPropertyId' T rd HT' Hrd) as (rp' & Hrp' & Heq').
  exists rp, rp'. eexists. eexists.
  split; [exact Hrp|]. split; [exact Hrp'|].
  split; [unfold write_property; rewrite HT, Hw, Hwr; reflexivity|].
  split; [unfold write_property; rewrite HT', Hw, Hwr; reflexivity|].
  split.
  - rewrite Heq, Heq'. unfold read_frame. now rewrite Hc.
  - cbn beta zeta. now rewrite Hc.
Qed.

Lemma property_id_truncated_witness :
  exists rp rp' wp wp',
    read_property I32 (fun _ => Some uint16_t) 0x9b40 (fun _ => xff) 5
    = Some rp
    /\ read_property I32 (fun _ => Some uint16_t) 0x9b40 (fun _ => xff) 65541
       = Some rp'
    /\ write_property (fun _ => Some uint16_t) 0x9b40 (fun _ => xff) 5
       = Some wp
    /\ write_property (fun _ => Some uint16_t) 0x9b40 (fun _ => xff) 65541
       = Some wp'
    /\ rp 0 (Some (VInt 7)) = rp' 0 (Some (VInt 7))
    /\ wp 0 (VInt 1000) = wp' 0 (VInt 1000).
Proof.
  apply (property_id_truncated I32 (fun _ => Some uint16_t) 0x9b40
           (fun _ => xff) 5 65541 uint16_t 0 (Some (VInt 7)) (VInt 1000)).
  - reflexivity.
  - reflexivity.
  - left. reflexivity.
  - split; [reflexivity|]. cbn. lia.
  - reflexivity.
Defined.

(** ** The number that the stored bytes denote *)

Lemma le_bytes_S n v : le_bytes (S n) v = le_bytes n v ++ [le_byte v n].
Proof. unfold le_bytes. now rewrite seq_S, map_app. Qed.

Lemma le_combine_le_bytes n v :
  le_combine (le_bytes n v) = v mod 2 ^ (8 * Z.of_nat n).
Proof.
  induction n as [|n IH].
  - cbn. now rewrite Z.mod_1_r.
  - rewrite le_bytes_S, le_combine_snoc, length_le_bytes, IH, Z_of_le_byte.
    rewrite add_disjoint_lor
      by (try apply Z.mod_pos_bound; try apply Z.pow_pos_nonneg; lia).
    rewrite lor_next_byte by lia. f_equal. f_equal. lia.
Qed.

(** X13. The bytes [write_le<T>] stores for an integer [v] (for [bool],
    one of the values 0 and 1) denote, least significant byte first, [v]
    reduced modulo [2^(8 * byte_width<T>)]: [v] itself when it is not
    negative and fits, its two's complement otherwise. *)
Theorem write_le_closed_form T v buffer m :
  is_integral T = true ->
  (T = TBool -> 0 <= v <= 1) ->
  (buffer + byte_width T <= length (cells m))%nat ->
  exists wr m1,
    write_le T = Some wr
    /\ wr buffer (VInt v) m = Some (tt, m1)
    /\ le_combine (take (byte_width T) (drop buffer (cells m1)))
       = v mod 2 ^ (8 * Z.of_nat (byte_width T))
    /\ (0 <= v < 2 ^ (8 * Z.of_nat (byte_width T)) ->
        le_combine (take (byte_width T) (drop buffer (cells m1))) = v)
    /\ (- 2 ^ (8 * Z.of_nat (byte_width T)) <= v < 0 ->
        le_combine (take (byte_width T) (drop buffer (cells m1)))
        = v + 2 ^ (8 * Z.of_nat (byte_width T))).
Proof.
  intros HT _ Hlen. eexists. eexists.
  split; [unfold write_le; rewrite HT; reflexivity|].
  cbn beta iota. split; [now apply write_le_integral_spec|].
  cbn [cells].
  assert (Ht : length (take buffer (cells m)) = buffer)
    by (apply length_take_le; lia).
  rewrite drop_app_length' by (now rewrite Ht).
  rewrite take_app_length' by (now rewrite length_le_bytes).
  rewrite le_combine_le_bytes.
  assert (Hp : 0 < 2 ^ (8 * Z.of_nat (byte_width T)))
    by (apply Z.pow_pos_nonneg; lia).
  split; [reflexivity|]. split; intros Hv.
  - apply Z.mod_small. exact Hv.
  - symmetry. apply (Z.mod_unique _ _ (-1)); lia.
Qed.

Lemma write_le_closed_form_witness :
  exists wr m1,
    write_le int16_t = Some wr
    /\ wr 1%nat (VInt (-2)) (Mem [x00; x00; x00; x00] []) = Some (tt, m1)
    /\ le_combine (take (byte_width int16_t) (drop 1 (cells m1)))
       = (-2) mod 2 ^ (8 * Z.of_nat (byte_width int16_t))
    /\ (0 <= -2 < 2 ^ (8 * Z.of_nat (byte_width int16_t)) ->
        le_combine (take (byte_width int16_t) (drop 1 (cells m1))) = -2)
    /\ (- 2 ^ (8 * Z.of_nat (byte_width int16_t)) <= -2 < 0 ->
        le_combine (take (byte_width int16_t) (drop 1 (cells m1)))
        = -2 + 2 ^ (8 * Z.of_nat (byte_width int16_t))).
Proof.
  apply (write_le_closed_form int16_t (-2) 1 (Mem [x00; x00; x00; x00] [])).
  - reflexivity.
  - discriminate.
  - cbn. lia.
Defined.

(** ** The round trip, overload by overload *)

(** X14. For every integral type [T] and every value [v] of that type,
    [write_le<T>(buffer, v)] followed by [read_le<T>(buffer)] gives back
    [v] itself, whatever the platform's [int] and the previous contents of
    the buffer; negative integers are such values. *)
Theorem read_le_write_le_integral_roundtrip int_sz T v buffer m :
  is_integral T = true -> representable T v ->
  (buffer + byte_width T <= length (cells m))%nat ->
  (exists wr rd m1 m2,
     write_le T = Some wr /\ read_le int_sz T = Some rd
     /\ wr buffer v m = Some (tt, m1) /\ rd buffer m1 = Some (v, m2))
  /\ representable int32_t (VInt (-5))
  /\ representable int8_t (VInt (-128)).
Proof.
  intros HI Hv Hlen. assert (HT : supported T) by now left. split.
  - destruct (proj2 (write_le_supported T) HT) as [wr Hwr].
    destruct (proj2 (read_le_supported int_sz T) HT) as [rd Hrd].
    exists wr, rd. eexists. eexists.
    split; [exact Hwr|]. split; [exact Hrd|].
    split; [exact (write_le_spec T wr v buffer m Hwr HI Hv Hlen)|].
    apply (read_le_spec int_sz T rd v); [assumption|assumption|].
    cbn [cells]. intros i Hi. now apply lookup_le_bytes_splice.
  - repeat split; cbn; lia.
Qed.

Lemma read_le_write_le_integral_roundtrip_witness :
  (exists wr rd m1 m2,
     write_le int32_t = Some wr /\ read_le I16 int32_t = Some rd
     /\ wr 1%nat (VInt (-5)) (Mem [x11; x22; x33; x44; x55] [])
        = Some (tt, m1)
     /\ rd 1%nat m1 = Some (VInt (-5), m2))
  /\ representable int32_t (VInt (-5))
  /\ representable int8_t (VInt (-128)).
Proof.
  apply (read_le_write_le_integral_roundtrip I16 int32_t (VInt (-5)) 1
           (Mem [x11; x22; x33; x44; x55] [])).
  - reflexivity.
  - split; [reflexivity|]. cbn. lia.
  - cbn. lia.
Defined.


